(** * Redio contract SDK: address derivation, instruction encoding, IDL fix-up

    A shallow embedding of
      - [sdk/rediopy/contract/__init__.py] (class [RedioContract]: the four
        address derivations and the six instruction builders), and
      - [sdk/genpy/main.py] (function [fix_account]),
    followed by the properties checked against the specification.

    Conventions.  Python [bytes] are lists of [Byte.byte]; Python [int] is [Z];
    a Python [str] that gets encoded is a list of code points; a Python [dict]
    with string keys is a [gmap string _]; a call that may raise returns a
    [result], and statements are sequenced with the bind of that monad. *)

From Stdlib Require Import ZArith Lia Strings.Byte Strings.Ascii.
From stdpp Require Import gmap strings list fin_maps.

Set Warnings "-register-all".
#[local] Open Scope Z_scope.

(** ** Exceptions and the error monad *)

Inductive exn : Set :=
  | StructError          (* struct.error *)
  | UnicodeEncodeError
  | KeyError
  | ValueError
  | TypeError
  | AttributeError
  | PanicException.      (* solders: a Rust panic surfaced in Python *)

Inductive result (A : Type) : Type :=
  | Ok (a : A)
  | Raise (e : exn).
Arguments Ok {A} a.
Arguments Raise {A} e.

#[global] Instance result_ret : MRet result := λ A a, Ok a.
#[global] Instance result_bind : MBind result := λ A B f m,
  match m with
  | Ok a => f a
  | Raise e => Raise e
  end.
#[global] Instance result_fmap : FMap result := λ A B f m,
  match m with
  | Ok a => Ok (f a)
  | Raise e => Raise e
  end.

Definition is_Ok {A} (r : result A) : Prop := ∃ a, r = Ok a.

(** ** Bytes and fixed-width little-endian packing ([struct.pack]) *)

Abbreviation bytes := (list byte).

#[global] Instance byte_eq_decision : EqDecision byte := Byte.byte_eq_dec.

Definition byte_of_Z (z : Z) : byte :=
  default "000"%byte (Byte.of_N (Z.to_N (z mod 256))).

Definition Z_of_byte (b : byte) : Z := Z.of_N (Byte.to_N b).

(** [bytes([a; b; ...])] for a literal list of integers. *)
Definition bytes_of_ints (l : list Z) : bytes := byte_of_Z <$> l.

(** A bytes literal [b"..."] whose characters are all ASCII. *)
Definition bytes_lit (s : string) : bytes :=
  (λ c, byte_of_Z (Z.of_N (N_of_ascii c))) <$> String.list_ascii_of_string s.

(** The [n] low-order bytes of [v], least significant first. *)
Fixpoint le_bytes (n : nat) (v : Z) : bytes :=
  match n with
  | O => []
  | S n' => byte_of_Z v :: le_bytes n' (v / 256)
  end.

(** Reading a byte string as an unsigned little-endian integer
    ([int.from_bytes(b, "little")]). *)
Fixpoint le_uint (b : bytes) : Z :=
  match b with
  | [] => 0
  | x :: b' => Z_of_byte x + 256 * le_uint b'
  end.

Module struct.

(** Size in bytes of the three unsigned formats the SDK uses. *)
Definition calcsize (fmt : string) : option nat :=
  if decide (fmt = "<H") then Some 2%nat
  else if decide (fmt = "<I") then Some 4%nat
  else if decide (fmt = "<Q") then Some 8%nat
  else None.

(** [struct.pack(fmt, v)] for one unsigned integer: [struct.error] unless
    [0 <= v < 2 ** (8 * size)]. *)
Definition pack (fmt : string) (v : Z) : result bytes :=
  match calcsize fmt with
  | None => Raise StructError
  | Some n =>
      if bool_decide (0 ≤ v < 2 ^ (8 * Z.of_nat n))
      then Ok (le_bytes n v)
      else Raise StructError
  end.

End struct.

(** ** [str.encode("utf-8")] *)

(** A Python [str] is a sequence of code points. *)
Abbreviation pystr := (list Z).

Definition str_lit (s : string) : pystr :=
  (λ c, Z.of_N (N_of_ascii c)) <$> String.list_ascii_of_string s.

Definition utf8_cont (c : Z) (shift : Z) : byte :=
  byte_of_Z (Z.lor 128 (Z.land (Z.shiftr c shift) 63)).

(** One code point; lone surrogates cannot be encoded. *)
Definition utf8_encode_cp (c : Z) : result bytes :=
  if bool_decide (c < 0) then Raise ValueError
  else if bool_decide (c < 128) then Ok [byte_of_Z c]
  else if bool_decide (c < 2048) then
    Ok [byte_of_Z (Z.lor 192 (Z.shiftr c 6)); utf8_cont c 0]
  else if bool_decide (55296 ≤ c ≤ 57343) then Raise UnicodeEncodeError
  else if bool_decide (c < 65536) then
    Ok [byte_of_Z (Z.lor 224 (Z.shiftr c 12)); utf8_cont c 6; utf8_cont c 0]
  else if bool_decide (c < 1114112) then
    Ok [byte_of_Z (Z.lor 240 (Z.shiftr c 18)); utf8_cont c 12; utf8_cont c 6;
        utf8_cont c 0]
  else Raise ValueError.

Fixpoint encode_utf8 (s : pystr) : result bytes :=
  match s with
  | [] => Ok []
  | c :: s' =>
      b ← utf8_encode_cp c;
      bs ← encode_utf8 s';
      Ok (b ++ bs)
  end.

(** ** Addresses ([solders.pubkey.Pubkey], [solders.keypair.Keypair]) *)

(** [Pubkey_bytes pk] is [bytes(pk)], 32 bytes for every real address. *)
Record Pubkey : Set := mkPubkey { Pubkey_bytes : bytes }.

#[global] Instance Pubkey_eq_dec : EqDecision Pubkey.
Proof. solve_decision. Defined.

(** The SDK only ever asks a keypair for its public address. *)
Record Keypair : Set := mkKeypair { Keypair_secret : bytes; Keypair_pubkey : Pubkey }.

(** *** [Pubkey.from_string]: base58 text to a 32-byte address *)

Definition b58_alphabet : string :=
  "123456789ABCDEFGHJKLMNPQRSTUVWXYZabcdefghijkmnopqrstuvwxyz".

Fixpoint b58_index (c : ascii) (alphabet : string) (i : Z) : option Z :=
  match alphabet with
  | EmptyString => None
  | String a rest => if decide (a = c) then Some i else b58_index c rest (i + 1)
  end.

Fixpoint b58_value (acc : Z) (s : string) : option Z :=
  match s with
  | EmptyString => Some acc
  | String c rest =>
      match b58_index c b58_alphabet 0 with
      | Some d => b58_value (acc * 58 + d) rest
      | None => None
      end
  end.

Fixpoint b58_leading_ones (s : string) : nat :=
  match s with
  | String "1"%char rest => S (b58_leading_ones rest)
  | _ => O
  end.

Definition byte_length (v : Z) : nat :=
  if bool_decide (v ≤ 0) then O else Z.to_nat (Z.log2 v / 8 + 1).

Definition Pubkey_from_string (s : string) : result Pubkey :=
  match b58_value 0 s with
  | None => Raise ValueError
  | Some v =>
      let b := replicate (b58_leading_ones s) "000"%byte
                 ++ reverse (le_bytes (byte_length v) v) in
      if decide (length b = 32%nat) then Ok (mkPubkey b) else Raise ValueError
  end.

Definition Pubkey_of_literal (s : string) : Pubkey :=
  match Pubkey_from_string s with
  | Ok pk => pk
  | Raise _ => mkPubkey []
  end.

(** *** [Pubkey.find_program_address]

    The derivation primitive is supplied by the [solders] library (SHA-256
    over the seeds, a bump byte and the owning program, with a search for an
    off-curve result).  The SDK treats it as a black box; so does this
    development: the search is an interface, and a search that finds no bump
    makes [find_program_address] panic. *)
Class Solders : Type := {
  try_find_program_address : list bytes → Pubkey → option (Pubkey * Z)
}.

Definition Pubkey_find_program_address `{Solders}
    (seeds : list bytes) (program : Pubkey) : result (Pubkey * Z) :=
  match try_find_program_address seeds program with
  | Some found => Ok found
  | None => Raise PanicException
  end.

(** ** Instructions ([solders.instruction]) *)

Record AccountMeta : Set := mkAccountMeta {
  pubkey : Pubkey;
  is_signer : bool;
  is_writable : bool
}.

Record Instruction : Set := mkInstruction {
  program_id : Pubkey;
  data : bytes;
  accounts : list AccountMeta
}.

(** [solders.system_program.ID] *)
Definition SYS_PROGRAM_ID : Pubkey :=
  Eval vm_compute in Pubkey_of_literal "11111111111111111111111111111111".

(** ** class [RedioContract] *)

(** Subscription [d[k]] of a dict. *)
Definition getitem {V} (d : gmap string V) (k : string) : result V :=
  match d !! k with
  | Some v => Ok v
  | None => Raise KeyError
  end.

Definition PROGRAM_ID : Pubkey :=
  Eval vm_compute in Pubkey_of_literal "CFQoHeX28aKhpgsLCSGM2zpou6RkRrwRoHVToWS2B6tQ".
Definition TOKEN_PROGRAM_ID : Pubkey :=
  Eval vm_compute in Pubkey_of_literal "TokenkegQfeZyiNwAJbNbGKPFXCWuBvf9Ss623VQ5DA".
Definition ASSOCIATED_TOKEN_PROGRAM_ID : Pubkey :=
  Eval vm_compute in Pubkey_of_literal "ATokenGPvbdGVxr1b2hvZbsiqW5xWH25efTNsLJA8knL".

Definition DISCRIMINATORS : gmap string bytes :=
  list_to_map [
    ("initialize_pool", bytes_of_ints [95; 180; 10; 172; 84; 174; 232; 40]);
    ("add_affiliate", bytes_of_ints [221; 239; 60; 159; 213; 45; 221; 87]);
    ("process_sale", bytes_of_ints [103; 228; 248; 104; 78; 46; 193; 82]);
    ("remove_affiliate", bytes_of_ints [146; 218; 182; 122; 118; 1; 69; 31]);
    ("deposit_escrow", bytes_of_ints [226; 112; 158; 176; 178; 118; 153; 128]);
    ("withdraw_escrow", bytes_of_ints [81; 84; 226; 128; 245; 47; 96; 104])
  ].

(** The instance state: the RPC client made by [__init__]. *)
Record RedioContract : Set := mkRedioContract { client_rpc_url : string }.

Section Contract.
Context `{Solders}.

Definition find_pool_pda (merchant : Pubkey) : result (Pubkey * Z) :=
  Pubkey_find_program_address
    [bytes_lit "pool"; Pubkey_bytes merchant] PROGRAM_ID.

Definition find_escrow_authority_pda (pool : Pubkey) : result (Pubkey * Z) :=
  Pubkey_find_program_address
    [bytes_lit "escrow_authority"; Pubkey_bytes pool] PROGRAM_ID.

Definition find_affiliate_pda (pool wallet : Pubkey) : result (Pubkey * Z) :=
  Pubkey_find_program_address
    [bytes_lit "affiliate"; Pubkey_bytes pool; Pubkey_bytes wallet] PROGRAM_ID.

Definition find_associated_token_address (owner mint : Pubkey) : result Pubkey :=
  r ← Pubkey_find_program_address
        [Pubkey_bytes owner; Pubkey_bytes TOKEN_PROGRAM_ID; Pubkey_bytes mint]
        ASSOCIATED_TOKEN_PROGRAM_ID;
  Ok (r.1).

Definition initialize_pool_ix (self : RedioContract) (merchant : Keypair)
    (usdc_mint : Pubkey) (commission_rate initial_deposit : Z)
    : result Instruction :=
  '(pool_pda, _) ← find_pool_pda (Keypair_pubkey merchant);
  '(escrow_authority, _) ← find_escrow_authority_pda pool_pda;
  merchant_usdc ← find_associated_token_address (Keypair_pubkey merchant) usdc_mint;
  escrow_usdc ← find_associated_token_address escrow_authority usdc_mint;
  data ← getitem DISCRIMINATORS "initialize_pool";
  packed ← struct.pack "<H" commission_rate;
  let data := data ++ packed in
  packed ← struct.pack "<Q" initial_deposit;
  let data := data ++ packed in
  let accounts := [
    mkAccountMeta pool_pda false true;
    mkAccountMeta (Keypair_pubkey merchant) true true;
    mkAccountMeta merchant_usdc false true;
    mkAccountMeta escrow_authority false false;
    mkAccountMeta escrow_usdc false true;
    mkAccountMeta usdc_mint false false;
    mkAccountMeta TOKEN_PROGRAM_ID false false;
    mkAccountMeta ASSOCIATED_TOKEN_PROGRAM_ID false false;
    mkAccountMeta SYS_PROGRAM_ID false false
  ] in
  Ok (mkInstruction PROGRAM_ID data accounts).

Definition add_affiliate_ix (self : RedioContract) (merchant : Keypair)
    (affiliate_wallet : Pubkey) (ref_id : pystr) : result Instruction :=
  '(pool_pda, _) ← find_pool_pda (Keypair_pubkey merchant);
  '(affiliate_pda, _) ← find_affiliate_pda pool_pda affiliate_wallet;
  ref_id_bytes ← encode_utf8 ref_id;
  data ← getitem DISCRIMINATORS "add_affiliate";
  packed ← struct.pack "<I" (Z.of_nat (length ref_id_bytes));
  let data := data ++ packed in
  let data := data ++ ref_id_bytes in
  let accounts := [
    mkAccountMeta pool_pda false false;
    mkAccountMeta affiliate_pda false true;
    mkAccountMeta affiliate_wallet false false;
    mkAccountMeta (Keypair_pubkey merchant) true true;
    mkAccountMeta SYS_PROGRAM_ID false false
  ] in
  Ok (mkInstruction PROGRAM_ID data accounts).

Definition process_sale_ix (self : RedioContract) (authority : Keypair)
    (merchant affiliate_wallet usdc_mint : Pubkey) (sale_amount : Z)
    : result Instruction :=
  '(pool_pda, _) ← find_pool_pda merchant;
  '(affiliate_pda, _) ← find_affiliate_pda pool_pda affiliate_wallet;
  '(escrow_authority, _) ← find_escrow_authority_pda pool_pda;
  escrow_usdc ← find_associated_token_address escrow_authority usdc_mint;
  affiliate_usdc ← find_associated_token_address affiliate_wallet usdc_mint;
  data ← getitem DISCRIMINATORS "process_sale";
  packed ← struct.pack "<Q" sale_amount;
  let data := data ++ packed in
  let accounts := [
    mkAccountMeta pool_pda false true;
    mkAccountMeta affiliate_pda false true;
    mkAccountMeta affiliate_wallet false true;
    mkAccountMeta escrow_authority false false;
    mkAccountMeta escrow_usdc false true;
    mkAccountMeta affiliate_usdc false true;
    mkAccountMeta usdc_mint false false;
    mkAccountMeta (Keypair_pubkey authority) true true;
    mkAccountMeta TOKEN_PROGRAM_ID false false;
    mkAccountMeta ASSOCIATED_TOKEN_PROGRAM_ID false false;
    mkAccountMeta SYS_PROGRAM_ID false false
  ] in
  Ok (mkInstruction PROGRAM_ID data accounts).

Definition remove_affiliate_ix (self : RedioContract) (merchant : Keypair)
    (affiliate_wallet : Pubkey) : result Instruction :=
  '(pool_pda, _) ← find_pool_pda (Keypair_pubkey merchant);
  '(affiliate_pda, _) ← find_affiliate_pda pool_pda affiliate_wallet;
  data ← getitem DISCRIMINATORS "remove_affiliate";
  let accounts := [
    mkAccountMeta pool_pda false false;
    mkAccountMeta affiliate_pda false true;
    mkAccountMeta affiliate_wallet false true;
    mkAccountMeta (Keypair_pubkey merchant) true false
  ] in
  Ok (mkInstruction PROGRAM_ID data accounts).

Definition deposit_escrow_ix (self : RedioContract) (merchant : Keypair)
    (usdc_mint : Pubkey) (amount : Z) : result Instruction :=
  '(pool_pda, _) ← find_pool_pda (Keypair_pubkey merchant);
  '(escrow_authority, _) ← find_escrow_authority_pda pool_pda;
  merchant_usdc ← find_associated_token_address (Keypair_pubkey merchant) usdc_mint;
  escrow_usdc ← find_associated_token_address escrow_authority usdc_mint;
  data ← getitem DISCRIMINATORS "deposit_escrow";
  packed ← struct.pack "<Q" amount;
  let data := data ++ packed in
  let accounts := [
    mkAccountMeta pool_pda false false;
    mkAccountMeta (Keypair_pubkey merchant) true true;
    mkAccountMeta merchant_usdc false true;
    mkAccountMeta escrow_authority false false;
    mkAccountMeta escrow_usdc false true;
    mkAccountMeta usdc_mint false false;
    mkAccountMeta TOKEN_PROGRAM_ID false false
  ] in
  Ok (mkInstruction PROGRAM_ID data accounts).

Definition withdraw_escrow_ix (self : RedioContract) (merchant : Keypair)
    (usdc_mint : Pubkey) (amount : Z) : result Instruction :=
  '(pool_pda, _) ← find_pool_pda (Keypair_pubkey merchant);
  '(escrow_authority, _) ← find_escrow_authority_pda pool_pda;
  merchant_usdc ← find_associated_token_address (Keypair_pubkey merchant) usdc_mint;
  escrow_usdc ← find_associated_token_address escrow_authority usdc_mint;
  data ← getitem DISCRIMINATORS "withdraw_escrow";
  packed ← struct.pack "<Q" amount;
  let data := data ++ packed in
  let accounts := [
    mkAccountMeta pool_pda false false;
    mkAccountMeta (Keypair_pubkey merchant) true true;
    mkAccountMeta merchant_usdc false true;
    mkAccountMeta escrow_authority false false;
    mkAccountMeta escrow_usdc false true;
    mkAccountMeta usdc_mint false false;
    mkAccountMeta TOKEN_PROGRAM_ID false false
  ] in
  Ok (mkInstruction PROGRAM_ID data accounts).

End Contract.

(** ** [sdk/genpy/main.py]: the IDL fix-up *)

(** What [json.loads] produces.  Strings are kept as their UTF-8 text. *)
Inductive json : Type :=
  | JNull
  | JBool (b : bool)
  | JInt (z : Z)
  | JFloat (bits : Z)
  | JStr (s : string)
  | JList (l : list json)
  | JDict (d : gmap string json).

(** [s.split(sep)]: never empty. *)
Fixpoint split (sep : ascii) (s : string) : list string :=
  match s with
  | EmptyString => [EmptyString]
  | String c rest =>
      if decide (c = sep) then EmptyString :: split sep rest
      else match split sep rest with
           | [] => [String c EmptyString]
           | w :: ws => String c w :: ws
           end
  end.

(** [needle in hay] for two strings. *)
Fixpoint str_contains (needle hay : string) : bool :=
  String.prefix needle hay ||
  match hay with
  | EmptyString => false
  | String _ rest => str_contains needle rest
  end.

(** [k in l] for a string [k] and a list [l]. *)
Definition list_contains (k : string) (l : list json) : bool :=
  existsb (λ x, match x with JStr s => bool_decide (s = k) | _ => false end) l.

(** [d.setdefault(k, v)] *)
Definition setdefault (k : string) (v : json) (d : gmap string json)
    : gmap string json :=
  match d !! k with
  | Some _ => d
  | None => <[k := v]> d
  end.

Definition allowed_keys : gset string :=
  {["name"; "writable"; "signer"; "pda"; "address"]}.

(** The body of the loop over [pda['seeds']].  A seed that is not a dict has
    no [get]; a path that is not a string has no [split]. *)
Definition fix_seed (seed : json) : result json :=
  match seed with
  | JDict d =>
      let kind_is_account :=
        match d !! "kind" with
        | Some (JStr k) => bool_decide (k = "account")
        | _ => false
        end in
      d ← (if kind_is_account && bool_decide (is_Some (d !! "path")) then
             match d !! "path" with
             | Some (JStr path) =>
                 Ok (<["path" := JStr (default EmptyString (head (split "." path)))]> d)
             | _ => Raise AttributeError
             end
           else Ok d);
      Ok (JDict (delete "account" d))
  | _ => Raise AttributeError
  end.

(** [if 'seeds' in pda: for seed in pda['seeds']: ...] on a dict [pda].
    Iterating a string or a dict yields strings, which are not seeds. *)
Definition fix_seeds (pda : gmap string json) : result (gmap string json) :=
  match pda !! "seeds" with
  | None => Ok pda
  | Some (JList seeds) =>
      seeds ← mapM fix_seed seeds;
      Ok (<["seeds" := JList seeds]> pda)
  | Some (JStr s) => if decide (s = EmptyString) then Ok pda else Raise AttributeError
  | Some (JDict d) => if decide (d = ∅) then Ok pda else Raise AttributeError
  | Some _ => Raise TypeError
  end.

(** [if 'program' in pda: ...] on a dict [pda]. *)
Definition fix_program (pda : gmap string json) : gmap string json :=
  match pda !! "program" with
  | None => pda
  | Some prog =>
      let well_formed :=
        match prog with
        | JDict g =>
            bool_decide (is_Some (g !! "kind")) && bool_decide (is_Some (g !! "value"))
        | _ => false
        end in
      if negb well_formed then delete "program" pda else pda
  end.

(** The [if 'pda' in account] block.  On a string or a list the two
    membership tests are legal, and a positive one is followed by a
    subscript with a string, which those types refuse. *)
Definition fix_pda (pda : json) : result json :=
  match pda with
  | JDict d =>
      d ← fix_seeds d;
      Ok (JDict (fix_program d))
  | JStr s =>
      if str_contains "seeds" s then Raise TypeError
      else if str_contains "program" s then Raise TypeError
      else Ok pda
  | JList l =>
      if list_contains "seeds" l then Raise TypeError
      else if list_contains "program" l then Raise TypeError
      else Ok pda
  | _ => Raise TypeError
  end.

Definition fix_account (account : json) : result json :=
  match account with
  | JStr _ => Ok account
  | JDict account =>
      let account := filter (λ kv, kv.1 ∈ allowed_keys) account in
      let account := setdefault "writable" (JBool false) account in
      let account := setdefault "signer" (JBool false) account in
      match account !! "pda" with
      | Some pda =>
          pda ← fix_pda pda;
          Ok (JDict (<["pda" := pda]> account))
      | None => Ok (JDict account)
      end
  | _ => Raise AttributeError
  end.

(** * The specification's side *)

(** ** Section 4.2: the six operations and their account tables *)

Inductive operation : Set :=
  | InitializePool | AddAffiliate | ProcessSale
  | RemoveAffiliate | DepositEscrow | WithdrawEscrow.

Definition operation_name (op : operation) : string :=
  match op with
  | InitializePool => "initialize_pool"
  | AddAffiliate => "add_affiliate"
  | ProcessSale => "process_sale"
  | RemoveAffiliate => "remove_affiliate"
  | DepositEscrow => "deposit_escrow"
  | WithdrawEscrow => "withdraw_escrow"
  end.

(** The tag of an operation, as the table defines it. *)
Definition discriminator (op : operation) : bytes :=
  default [] (DISCRIMINATORS !! operation_name op).

Inductive role : Set :=
  | Pool | Merchant | MerchantToken | EscrowAuthority | EscrowToken | Mint
  | Affiliate | AffiliateWallet | AffiliateToken | Authority
  | TokenProgram | AssociatedTokenProgram | SystemProgram.

(** One slot of the table: who, (S)igner, (W)ritable. *)
Record slot : Set := mkSlot { slot_role : role; slot_signer : bool; slot_writable : bool }.

Definition slot_plain (r : role) : slot := mkSlot r false false.  (* r(-)   *)
Definition slot_W (r : role) : slot := mkSlot r false true.       (* r(W)   *)
Definition slot_S (r : role) : slot := mkSlot r true false.       (* r(S)   *)
Definition slot_SW (r : role) : slot := mkSlot r true true.       (* r(S,W) *)

Definition account_table (op : operation) : list slot :=
  match op with
  | InitializePool =>
      [slot_W Pool; slot_SW Merchant; slot_W MerchantToken;
       slot_plain EscrowAuthority; slot_W EscrowToken; slot_plain Mint;
       slot_plain TokenProgram; slot_plain AssociatedTokenProgram;
       slot_plain SystemProgram]
  | AddAffiliate =>
      [slot_plain Pool; slot_W Affiliate; slot_plain AffiliateWallet;
       slot_SW Merchant; slot_plain SystemProgram]
  | ProcessSale =>
      [slot_W Pool; slot_W Affiliate; slot_W AffiliateWallet;
       slot_plain EscrowAuthority; slot_W EscrowToken; slot_W AffiliateToken;
       slot_plain Mint; slot_SW Authority; slot_plain TokenProgram;
       slot_plain AssociatedTokenProgram; slot_plain SystemProgram]
  | RemoveAffiliate =>
      [slot_plain Pool; slot_W Affiliate; slot_W AffiliateWallet; slot_S Merchant]
  | DepositEscrow | WithdrawEscrow =>
      [slot_plain Pool; slot_SW Merchant; slot_W MerchantToken;
       slot_plain EscrowAuthority; slot_W EscrowToken; slot_plain Mint;
       slot_plain TokenProgram]
  end.

(** The addresses a caller supplies; every other role is derived from them
    (section 4.1) or is a fixed program identifier. *)
Record principals : Set := mkPrincipals {
  the_merchant : Pubkey;
  the_affiliate_wallet : Pubkey;
  the_mint : Pubkey;
  the_authority : Pubkey
}.

Section Roles.
Context `{Solders}.

Definition pool_address (c : principals) : result Pubkey :=
  r ← find_pool_pda (the_merchant c); Ok (r.1).

Definition escrow_authority_address (c : principals) : result Pubkey :=
  pool ← pool_address c;
  r ← find_escrow_authority_pda pool; Ok (r.1).

Definition resolve_role (c : principals) (r : role) : result Pubkey :=
  match r with
  | Pool => pool_address c
  | Merchant => Ok (the_merchant c)
  | MerchantToken => find_associated_token_address (the_merchant c) (the_mint c)
  | EscrowAuthority => escrow_authority_address c
  | EscrowToken =>
      authority ← escrow_authority_address c;
      find_associated_token_address authority (the_mint c)
  | Mint => Ok (the_mint c)
  | Affiliate =>
      pool ← pool_address c;
      r ← find_affiliate_pda pool (the_affiliate_wallet c); Ok (r.1)
  | AffiliateWallet => Ok (the_affiliate_wallet c)
  | AffiliateToken =>
      find_associated_token_address (the_affiliate_wallet c) (the_mint c)
  | Authority => Ok (the_authority c)
  | TokenProgram => Ok TOKEN_PROGRAM_ID
  | AssociatedTokenProgram => Ok ASSOCIATED_TOKEN_PROGRAM_ID
  | SystemProgram => Ok SYS_PROGRAM_ID
  end.

(** The account list the table prescribes for [op]. *)
Definition expected_accounts (op : operation) (c : principals)
    : result (list AccountMeta) :=
  mapM (λ s, a ← resolve_role c (slot_role s);
             Ok (mkAccountMeta a (slot_signer s) (slot_writable s)))
       (account_table op).

(** Every address the operation needs can be derived (section 4.1: the
    bump search is not exhausted). *)
Definition derivable (op : operation) (c : principals) : Prop :=
  is_Ok (expected_accounts op c).

End Roles.

(** A call of one of the six builders, with its arguments. *)
Inductive call : Set :=
  | InitializePoolIx (merchant : Keypair) (usdc_mint : Pubkey)
      (commission_rate initial_deposit : Z)
  | AddAffiliateIx (merchant : Keypair) (affiliate_wallet : Pubkey) (ref_id : pystr)
  | ProcessSaleIx (authority : Keypair) (merchant affiliate_wallet usdc_mint : Pubkey)
      (sale_amount : Z)
  | RemoveAffiliateIx (merchant : Keypair) (affiliate_wallet : Pubkey)
  | DepositEscrowIx (merchant : Keypair) (usdc_mint : Pubkey) (amount : Z)
  | WithdrawEscrowIx (merchant : Keypair) (usdc_mint : Pubkey) (amount : Z).

Definition build `{Solders} (self : RedioContract) (k : call) : result Instruction :=
  match k with
  | InitializePoolIx merchant usdc_mint commission_rate initial_deposit =>
      initialize_pool_ix self merchant usdc_mint commission_rate initial_deposit
  | AddAffiliateIx merchant affiliate_wallet ref_id =>
      add_affiliate_ix self merchant affiliate_wallet ref_id
  | ProcessSaleIx authority merchant affiliate_wallet usdc_mint sale_amount =>
      process_sale_ix self authority merchant affiliate_wallet usdc_mint sale_amount
  | RemoveAffiliateIx merchant affiliate_wallet =>
      remove_affiliate_ix self merchant affiliate_wallet
  | DepositEscrowIx merchant usdc_mint amount =>
      deposit_escrow_ix self merchant usdc_mint amount
  | WithdrawEscrowIx merchant usdc_mint amount =>
      withdraw_escrow_ix self merchant usdc_mint amount
  end.

Definition call_operation (k : call) : operation :=
  match k with
  | InitializePoolIx _ _ _ _ => InitializePool
  | AddAffiliateIx _ _ _ => AddAffiliate
  | ProcessSaleIx _ _ _ _ _ => ProcessSale
  | RemoveAffiliateIx _ _ => RemoveAffiliate
  | DepositEscrowIx _ _ _ => DepositEscrow
  | WithdrawEscrowIx _ _ _ => WithdrawEscrow
  end.

(** The addresses the caller passed; a role the operation's table does not
    mention is filled with the merchant's address and never looked at. *)
Definition call_principals (k : call) : principals :=
  match k with
  | InitializePoolIx merchant usdc_mint _ _
  | DepositEscrowIx merchant usdc_mint _
  | WithdrawEscrowIx merchant usdc_mint _ =>
      let m := Keypair_pubkey merchant in mkPrincipals m m usdc_mint m
  | AddAffiliateIx merchant affiliate_wallet _
  | RemoveAffiliateIx merchant affiliate_wallet =>
      let m := Keypair_pubkey merchant in mkPrincipals m affiliate_wallet m m
  | ProcessSaleIx authority merchant affiliate_wallet usdc_mint _ =>
      mkPrincipals merchant affiliate_wallet usdc_mint (Keypair_pubkey authority)
  end.

(** The two flags of each account of an instruction, in order. *)
Definition account_flags (ix : Instruction) : list (bool * bool) :=
  (λ a, (is_signer a, is_writable a)) <$> accounts ix.

Definition table_flags (op : operation) : list (bool * bool) :=
  (λ s, (slot_signer s, slot_writable s)) <$> account_table op.

(** The account list of [ix] is the one the table of [op] prescribes:
    same length, same address and same two flags in every slot. *)
Definition follows_table `{Solders} (op : operation) (c : principals)
    (ix : Instruction) : Prop :=
  expected_accounts op c = Ok (accounts ix)
  ∧ length (accounts ix) = length (account_table op)
  ∧ account_flags ix = table_flags op.

(** ** Section 3: the layout of instruction data *)

Definition discriminator_of (ix : Instruction) : bytes := take 8 (data ix).
Definition argument_payload (ix : Instruction) : bytes := drop 8 (data ix).

(** Reading a payload as a little-endian u16 followed by a little-endian u64. *)
Definition unpack_u16_u64 (payload : bytes) : option (Z * Z) :=
  if decide (length payload = 10%nat)
  then Some (le_uint (take 2 payload), le_uint (drop 2 payload))
  else None.

(** How a builder whose integer arguments are packed at fixed width relates
    to that width: [derives] says the addresses can be derived, [fits] that
    the arguments are within their fields, [r] is what the builder does. *)
Definition width_bound_behaviour (derives fits : Prop) (r : result Instruction) : Prop :=
  (¬ fits → (∃ e, r = Raise e) ∧ (derives → r = Raise StructError)) ∧
  (fits → (derives → is_Ok r) ∧ (∀ e, r = Raise e → e = PanicException ∧ ¬ derives)).

(** ** Section 6: what a well-formed IDL account looks like *)

Definition seed_well_formed (seed : json) : Prop :=
  ∃ d, seed = JDict d ∧
       (d !! "kind" = Some (JStr "account") →
        d !! "path" = None ∨ ∃ p, d !! "path" = Some (JStr p)).

Definition pda_well_formed (pda : json) : Prop :=
  ∃ d, pda = JDict d ∧
       (d !! "seeds" = None ∨
        ∃ seeds, d !! "seeds" = Some (JList seeds) ∧ Forall seed_well_formed seeds).

Definition account_well_formed (account : gmap string json) : Prop :=
  account !! "pda" = None ∨
  ∃ pda, account !! "pda" = Some pda ∧ pda_well_formed pda.

(** [c] is the part of [path] before its first dot. *)
Definition first_component_of (path c : string) : Prop :=
  (∀ ch, ch ∈ String.list_ascii_of_string c → ch ≠ "."%char) ∧
  (path = c ∨ ∃ rest, path = (c +:+ "." +:+ rest)%string).

(** What the loop does to one seed. *)
Definition seed_fixed (seed seed' : json) : Prop :=
  ∃ d d', seed = JDict d ∧ seed' = JDict d' ∧
    d' !! "account" = None ∧
    (∀ p, d !! "kind" = Some (JStr "account") → d !! "path" = Some (JStr p) →
          ∃ c, d' !! "path" = Some (JStr c) ∧ first_component_of p c) ∧
    (∀ k, k ≠ "account" → k ≠ "path" → d' !! k = d !! k).

(** The fate of a derivation's "program" entry. *)
Definition program_kept (prog : option json) : option json :=
  match prog with
  | Some (JDict g) =>
      if bool_decide (is_Some (g !! "kind") ∧ is_Some (g !! "value"))
      then prog else None
  | _ => None
  end.

(** ** A stand-in for the library primitive

    Used only to run the builders on concrete inputs: the derived address is
    the first 32 bytes of the seeds followed by the program identifier, and the
    bump is always 255. *)
Definition sample_solders : Solders := {|
  try_find_program_address seeds program :=
    Some (mkPubkey (take 32 (concat seeds ++ Pubkey_bytes program)), 255)
|}.

Definition sample_self : RedioContract := mkRedioContract "http://localhost:8899".
Definition sample_key (n : Z) : Pubkey := mkPubkey (replicate 32 (byte_of_Z n)).
Definition sample_keypair (n : Z) : Keypair := mkKeypair (replicate 32 (byte_of_Z n)) (sample_key n).

(** An account entry as Anchor writes it, with a nested seed path, fields the
    strict reader does not know, and a program override without a value. *)
Definition sample_seed_account : gmap string json :=
  list_to_map [("kind", JStr "account"); ("path", JStr "pool.merchant");
               ("account", JStr "MerchantPool")].
Definition sample_seed_const : gmap string json :=
  list_to_map [("kind", JStr "const"); ("value", JList [JInt 112; JInt 111])].
Definition sample_pda : gmap string json :=
  list_to_map [("seeds", JList [JDict sample_seed_const; JDict sample_seed_account]);
               ("program", JDict (list_to_map [("kind", JStr "const")]))].
Definition sample_account : gmap string json :=
  list_to_map [("name", JStr "affiliate"); ("writable", JBool true);
               ("docs", JList [JStr "The affiliate account"]);
               ("pda", JDict sample_pda)].

(** ** [sdk/genpy/main.py]: [fix_idl] *)

(** Iterating a Python string yields one string per character.  On UTF-8
    text a character is a lead byte with the continuation bytes after it. *)
Definition is_continuation (c : ascii) : bool :=
  let n := N_of_ascii c in ((128 <=? n) && (n <? 192))%N.

Definition starts_with_continuation (s : string) : bool :=
  match s with
  | String c _ => is_continuation c
  | EmptyString => false
  end.

Fixpoint str_chars (s : string) : list string :=
  match s with
  | EmptyString => []
  | String c rest =>
      match str_chars rest with
      | w :: ws =>
          if starts_with_continuation rest then String c w :: ws
          else String c EmptyString :: w :: ws
      | [] => [String c EmptyString]
      end
  end.

(** [[fix_account(acc) for acc in instr['accounts']]].  A string is iterated
    by character and a dict by key; both yield strings, which [fix_account]
    hands back.  A [gmap] does not record the order in which the keys were
    inserted, which is the order Python walks them in: for a dict the list
    below holds the right keys, in the order of the map. *)
Definition fix_accounts (v : json) : result json :=
  match v with
  | JList l => l ← mapM fix_account l; Ok (JList l)
  | JStr s => Ok (JList (JStr <$> str_chars s))
  | JDict d => Ok (JList (JStr <$> (map_to_list d).*1))
  | _ => Raise TypeError
  end.

(** The body of the loop over [idl['instructions']]. *)
Definition fix_instruction (instr : json) : result json :=
  match instr with
  | JDict d =>
      match d !! "accounts" with
      | Some v =>
          accs ← fix_accounts v;
          Ok (JDict (<["accounts" := accs]> d))
      | None => Ok instr
      end
  | JStr s => if str_contains "accounts" s then Raise TypeError else Ok instr
  | JList l => if list_contains "accounts" l then Raise TypeError else Ok instr
  | _ => Raise TypeError
  end.

(** The characters of a string never contain "accounts", so a string of
    instructions is walked without effect; the keys of a dict may. *)
Definition fix_idl (idl : json) : result json :=
  match idl with
  | JDict d =>
      match d !! "instructions" with
      | None => Ok idl
      | Some (JList instrs) =>
          instrs ← mapM fix_instruction instrs;
          Ok (JDict (<["instructions" := JList instrs]> d))
      | Some (JStr _) => Ok idl
      | Some (JDict keys) =>
          if existsb (str_contains "accounts") (map_to_list keys).*1
          then Raise TypeError else Ok idl
      | Some _ => Raise TypeError
      end
  | JStr s => if str_contains "instructions" s then Raise TypeError else Ok idl
  | JList l => if list_contains "instructions" l then Raise TypeError else Ok idl
  | _ => Raise TypeError
  end.

(** ** The account models ([pydantic.BaseModel]) *)

(** Construction validates the [Field] bounds; a violation raises
    [ValidationError], which is a [ValueError]. *)
Module MerchantPool.
Record t : Set := mk {
  merchant : string;
  usdc_mint : string;
  commission_rate : Z;
  total_volume : Z;
  total_commissions_paid : Z;
  bump : Z;
  escrow_bump : Z
}.
Definition validate (p : t) : result t :=
  if bool_decide (0 ≤ commission_rate p ≤ 10000)
     && bool_decide (0 ≤ total_volume p)
     && bool_decide (0 ≤ total_commissions_paid p)
  then Ok p else Raise ValueError.
End MerchantPool.

Module AffiliateAccount.
Record t : Set := mk {
  pool : string;
  wallet : string;
  ref_id : pystr;
  total_earned : Z;
  sales_count : Z;
  is_active : bool;
  bump : Z;
  created_at : Z
}.
(** A [str] field also refuses text that holds a lone surrogate. *)
Definition validate (a : t) : result t :=
  if bool_decide (length (ref_id a) ≤ 32)%nat
     && bool_decide (Forall (λ c, ¬ (55296 ≤ c ≤ 57343)) (ref_id a))
     && bool_decide (0 ≤ total_earned a)
     && bool_decide (0 ≤ sales_count a)
  then Ok a else Raise ValueError.
End AffiliateAccount.

(** ** Further vocabulary for the properties *)

(** The keypair a builder marks as signer. *)
Definition call_signer (k : call) : Pubkey :=
  match k with
  | InitializePoolIx merchant _ _ _ | AddAffiliateIx merchant _ _
  | RemoveAffiliateIx merchant _ | DepositEscrowIx merchant _ _
  | WithdrawEscrowIx merchant _ _ => Keypair_pubkey merchant
  | ProcessSaleIx authority _ _ _ _ => Keypair_pubkey authority
  end.

(** The single u64 argument of the three builders that have one. *)
Definition call_amount (k : call) : option Z :=
  match k with
  | ProcessSaleIx _ _ _ _ amount | DepositEscrowIx _ _ amount
  | WithdrawEscrowIx _ _ amount => Some amount
  | _ => None
  end.

(** Code points of a Python [str], and the ones UTF-8 refuses. *)
Definition code_point (c : Z) : Prop := 0 ≤ c < 1114112.
Definition surrogate (c : Z) : Prop := 55296 ≤ c ≤ 57343.

(** A seed the loop of [fix_account] leaves alone but for its "account". *)
Definition seed_only_loses_account (seed seed' : json) : Prop :=
  ∀ d, seed = JDict d →
       (d !! "kind" ≠ Some (JStr "account") ∨ d !! "path" = None) →
       seed' = JDict (delete "account" d).

(** Well-formed IDL documents. *)
Definition idl_account_well_formed (acc : json) : Prop :=
  (∃ s, acc = JStr s) ∨ (∃ d, acc = JDict d ∧ account_well_formed d).

Definition idl_instruction_well_formed (instr : json) : Prop :=
  ∃ d, instr = JDict d ∧
       (d !! "accounts" = None ∨
        ∃ accs, d !! "accounts" = Some (JList accs)
                ∧ Forall idl_account_well_formed accs).

Definition idl_well_formed (idl : gmap string json) : Prop :=
  idl !! "instructions" = None ∨
  ∃ instrs, idl !! "instructions" = Some (JList instrs)
            ∧ Forall idl_instruction_well_formed instrs.

(** What [fix_idl] does to one instruction of a list. *)
Definition instruction_fixed (instr instr' : json) : Prop :=
  ∀ d, instr = JDict d →
    ∃ d', instr' = JDict d'
      ∧ (∀ k, k ≠ "accounts" → d' !! k = d !! k)
      ∧ (d !! "accounts" = None → d' !! "accounts" = None)
      ∧ (∀ accs, d !! "accounts" = Some (JList accs) →
           ∃ accs', d' !! "accounts" = Some (JList accs')
                    ∧ Forall2 (λ a a', fix_account a = Ok a') accs accs').

(** An IDL with one instruction, whose accounts are a name and an entry. *)
Definition sample_idl : gmap string json :=
  list_to_map
    [("address", JStr "CFQoHeX28aKhpgsLCSGM2zpou6RkRrwRoHVToWS2B6tQ");
     ("instructions", JList [JDict (list_to_map
        [("name", JStr "add_affiliate");
         ("accounts", JList [JStr "system_program"; JDict sample_account])])])].

(** The arguments of a call can be laid down in their fields: the integers
    are within their widths, and the reference id has a UTF-8 encoding whose
    length fits the 4-byte count. *)
Definition arguments_fit (k : call) : Prop :=
  match k with
  | InitializePoolIx _ _ commission_rate initial_deposit =>
      0 ≤ commission_rate ≤ 65535 ∧ 0 ≤ initial_deposit < 2 ^ 64
  | AddAffiliateIx _ _ ref_id =>
      ∃ b, encode_utf8 ref_id = Ok b ∧ Z.of_nat (length b) < 2 ^ 32
  | ProcessSaleIx _ _ _ _ amount | DepositEscrowIx _ _ amount
  | WithdrawEscrowIx _ _ amount => 0 ≤ amount < 2 ^ 64
  | RemoveAffiliateIx _ _ => True
  end.

(** One call of each builder, on the sample keys. *)
Definition sample_calls : list call :=
  [InitializePoolIx (sample_keypair 1) (sample_key 3) 500 1000000;
   AddAffiliateIx (sample_keypair 1) (sample_key 2) [65; 70; 70; 48; 48; 49];
   ProcessSaleIx (sample_keypair 4) (sample_key 1) (sample_key 2) (sample_key 3)
     50000000;
   RemoveAffiliateIx (sample_keypair 1) (sample_key 2);
   DepositEscrowIx (sample_keypair 1) (sample_key 3) 50000000;
   WithdrawEscrowIx (sample_keypair 1) (sample_key 3) 20000000].

(** * Properties *)

(** ** Bytes *)

Lemma Z_of_byte_of_Z (z : Z) : Z_of_byte (byte_of_Z z) = z mod 256.
Proof.
  unfold Z_of_byte, byte_of_Z.
  assert (Hb : 0 ≤ z mod 256 < 256) by (apply Z.mod_pos_bound; lia).
  destruct (Byte.of_N (Z.to_N (z mod 256))) as [b|] eqn:E; simpl.
  - apply Byte.to_of_N in E. rewrite E. lia.
  - apply Byte.of_N_None_iff in E. lia.
Qed.

Lemma Z_of_byte_range (b : byte) : 0 ≤ Z_of_byte b < 256.
Proof. unfold Z_of_byte. pose proof (Byte.to_N_bounded b). lia. Qed.

Lemma length_le_bytes (n : nat) (v : Z) : length (le_bytes n v) = n.
Proof. revert v. induction n as [|n IH]; intros v; simpl; [done|]. by rewrite IH. Qed.

Lemma le_uint_le_bytes (n : nat) (v : Z) :
  le_uint (le_bytes n v) = v mod 2 ^ (8 * Z.of_nat n).
Proof.
  revert v. induction n as [|n IH]; intros v.
  - simpl. by rewrite Z.mod_1_r.
  - cbn [le_bytes le_uint]. rewrite Z_of_byte_of_Z, IH.
    replace (8 * Z.of_nat (S n)) with (8 + 8 * Z.of_nat n) by lia.
    rewrite Z.pow_add_r by lia. change (2 ^ 8) with 256.
    rewrite Z.rem_mul_r by lia. reflexivity.
Qed.

Lemma le_uint_le_bytes_id (n : nat) (v : Z) :
  0 ≤ v < 2 ^ (8 * Z.of_nat n) → le_uint (le_bytes n v) = v.
Proof. intros Hv. rewrite le_uint_le_bytes. by apply Z.mod_small. Qed.

Lemma pack_Ok (fmt : string) (n : nat) (v : Z) :
  struct.calcsize fmt = Some n → 0 ≤ v < 2 ^ (8 * Z.of_nat n) →
  struct.pack fmt v = Ok (le_bytes n v).
Proof.
  intros Hn Hv. unfold struct.pack. rewrite Hn.
  by rewrite bool_decide_eq_true_2.
Qed.

Lemma pack_Raise (fmt : string) (n : nat) (v : Z) :
  struct.calcsize fmt = Some n → ¬ (0 ≤ v < 2 ^ (8 * Z.of_nat n)) →
  struct.pack fmt v = Raise StructError.
Proof.
  intros Hn Hv. unfold struct.pack. rewrite Hn.
  by rewrite bool_decide_eq_false_2.
Qed.

Lemma Pubkey_bytes_inj (a b : Pubkey) : Pubkey_bytes a = Pubkey_bytes b → a = b.
Proof. destruct a, b; simpl; congruence. Qed.

Example PROGRAM_ID_bytes :
  Pubkey_from_string "CFQoHeX28aKhpgsLCSGM2zpou6RkRrwRoHVToWS2B6tQ" = Ok PROGRAM_ID
  ∧ Z_of_byte <$> Pubkey_bytes PROGRAM_ID =
    [167; 33; 152; 151; 100; 200; 175; 249; 164; 7; 30; 47; 255; 208; 86; 141;
     90; 96; 156; 224; 248; 217; 187; 214; 127; 70; 21; 76; 44; 55; 150; 217].
Proof. split; vm_compute; reflexivity. Qed.

Example pack_500 :
  struct.pack "<H" 500 = Ok (bytes_of_ints [244; 1])
  ∧ struct.pack "<Q" 1000000 = Ok (bytes_of_ints [64; 66; 15; 0; 0; 0; 0; 0]).
Proof. split; vm_compute; reflexivity. Qed.

(** ** The error monad *)

Lemma bind_Ok_inv {A B} (m : result A) (f : A → result B) (b : B) :
  m ≫= f = Ok b → ∃ a, m = Ok a ∧ f a = Ok b.
Proof. destruct m as [a|e]; simpl; [eauto|done]. Qed.

Lemma mapM_Ok_inv {A B} (f : A → result B) (l : list A) (k : list B) :
  mapM f l = Ok k → Forall2 (λ x y, f x = Ok y) l k.
Proof.
  revert k. induction l as [|x l IH]; intros k; simpl.
  - intros [= <-]. constructor.
  - intros Hk. apply bind_Ok_inv in Hk as (y & Hy & Hk).
    apply bind_Ok_inv in Hk as (k' & Hk' & [= <-]).
    constructor; auto.
Qed.

Lemma mapM_Ok_intro {A B} (f : A → result B) (l : list A) :
  Forall (λ x, is_Ok (f x)) l → is_Ok (mapM f l).
Proof.
  induction 1 as [|x l [y Hy] _ [k Hk]]; simpl.
  - by eexists.
  - rewrite Hy; simpl. rewrite Hk; simpl. by eexists.
Qed.

(** ** Discriminator table *)

Lemma DISCRIMINATORS_elem (k : string) (d : bytes) :
  DISCRIMINATORS !! k = Some d →
  ∃ op, k = operation_name op ∧ DISCRIMINATORS !! operation_name op = Some d.
Proof.
  intros Hk. assert (Hk' := Hk). unfold DISCRIMINATORS in Hk.
  apply elem_of_list_to_map_2 in Hk.
  repeat (apply elem_of_cons in Hk as [Hk|Hk];
          [injection Hk as -> ->|]).
  - by exists InitializePool.
  - by exists AddAffiliate.
  - by exists ProcessSale.
  - by exists RemoveAffiliate.
  - by exists DepositEscrow.
  - by exists WithdrawEscrow.
  - by apply elem_of_nil in Hk.
Qed.

Lemma getitem_discriminator (op : operation) :
  getitem DISCRIMINATORS (operation_name op) = Ok (discriminator op).
Proof. destruct op; vm_compute; reflexivity. Qed.

Lemma length_discriminator (op : operation) : length (discriminator op) = 8%nat.
Proof. by destruct op. Qed.

Lemma pack_cases (fmt : string) (n : nat) (v : Z) :
  struct.calcsize fmt = Some n →
  (0 ≤ v < 2 ^ (8 * Z.of_nat n) ∧ struct.pack fmt v = Ok (le_bytes n v)) ∨
  (¬ (0 ≤ v < 2 ^ (8 * Z.of_nat n)) ∧ struct.pack fmt v = Raise StructError).
Proof.
  intros Hn. destruct (decide (0 ≤ v < 2 ^ (8 * Z.of_nat n))).
  - left. split; [done|]. by eapply pack_Ok.
  - right. split; [done|]. by eapply pack_Raise.
Qed.

Lemma not_Ok_Raise {A} (r : result A) : (∀ a, r ≠ Ok a) → ∃ e, r = Raise e.
Proof. destruct r as [a|e]; [intros Hr; by destruct (Hr a)|eauto]. Qed.

(** ** The builders, characterised

    Each builder returns exactly when the addresses of its account table can
    be derived and its arguments fit their fields, and then the instruction is
    the table's account list under the program identifier, with the
    discriminator followed by the packed arguments as data. *)

(** Case analysis on every call of the derivation primitive in the goal. *)
Ltac derive_cases :=
  repeat match goal with
  | |- context [try_find_program_address ?s ?p] =>
      let E := fresh "E" in
      destruct (try_find_program_address s p) as [[? ?]|] eqn:E; simpl
  end.

Ltac unfold_derivations :=
  unfold expected_accounts, resolve_role, escrow_authority_address,
    pool_address, find_pool_pda, find_escrow_authority_pda, find_affiliate_pda,
    find_associated_token_address, Pubkey_find_program_address; simpl.

Ltac use_discriminator op :=
  change (getitem DISCRIMINATORS _) with (getitem DISCRIMINATORS (operation_name op));
  rewrite (getitem_discriminator op); simpl.

Ltac same_instruction ix :=
  let Ha := fresh in let Hp := fresh in let Hd := fresh in
  intros ([= Ha] & Hp & _ & Hd); destruct ix; simpl in *; by subst.

Section Builders.
Context `{Solders}.

Lemma initialize_pool_ix_Ok self merchant wallet authority mint rate dep ix :
  initialize_pool_ix self merchant mint rate dep = Ok ix ↔
    expected_accounts InitializePool
      (mkPrincipals (Keypair_pubkey merchant) wallet mint authority) = Ok (accounts ix)
    ∧ program_id ix = PROGRAM_ID
    ∧ (0 ≤ rate < 2 ^ 16 ∧ 0 ≤ dep < 2 ^ 64)
    ∧ data ix = (discriminator InitializePool ++ le_bytes 2 rate) ++ le_bytes 8 dep.
Proof.
  unfold initialize_pool_ix. unfold_derivations. derive_cases.
  all: try (split; [done | by intros [? _]]).
  use_discriminator InitializePool.
  destruct (pack_cases "<H" 2 rate eq_refl) as [[Hr ->]|[Hr ->]]; simpl;
    [|split; [done | intros (_ & _ & [? _] & _); done]].
  destruct (pack_cases "<Q" 8 dep eq_refl) as [[Hd ->]|[Hd ->]]; simpl;
    [|split; [done | intros (_ & _ & [_ ?] & _); done]].
  split; [by intros [= <-] | same_instruction ix].
Qed.

Lemma add_affiliate_ix_Ok self merchant wallet authority mint ref_id ix :
  add_affiliate_ix self merchant wallet ref_id = Ok ix ↔
    expected_accounts AddAffiliate
      (mkPrincipals (Keypair_pubkey merchant) wallet mint authority) = Ok (accounts ix)
    ∧ program_id ix = PROGRAM_ID
    ∧ (∃ b, encode_utf8 ref_id = Ok b ∧ 0 ≤ Z.of_nat (length b) < 2 ^ 32)
    ∧ ∀ b, encode_utf8 ref_id = Ok b →
        data ix = (discriminator AddAffiliate ++ le_bytes 4 (Z.of_nat (length b))) ++ b.
Proof.
  unfold add_affiliate_ix. unfold_derivations. derive_cases.
  all: try (split; [done | by intros [? _]]).
  destruct (encode_utf8 ref_id) as [b|e]; simpl;
    [|split; [done | intros (_ & _ & (b & ? & _) & _); done]].
  use_discriminator AddAffiliate.
  destruct (pack_cases "<I" 4 (Z.of_nat (length b)) eq_refl) as [[Hr ->]|[Hr ->]]; simpl.
  - split.
    + intros [= <-]; simpl. split_and!; [done..|eauto|]. by intros ? [= <-].
    + intros ([= Ha] & Hp & _ & Hd). specialize (Hd b eq_refl).
      destruct ix; simpl in *. by subst.
  - split; [done|]. intros (_ & _ & (b' & [= <-] & ?) & _). done.
Qed.

Lemma process_sale_ix_Ok self authority merchant wallet mint amount ix :
  process_sale_ix self authority merchant wallet mint amount = Ok ix ↔
    expected_accounts ProcessSale
      (mkPrincipals merchant wallet mint (Keypair_pubkey authority)) = Ok (accounts ix)
    ∧ program_id ix = PROGRAM_ID
    ∧ 0 ≤ amount < 2 ^ 64
    ∧ data ix = discriminator ProcessSale ++ le_bytes 8 amount.
Proof.
  unfold process_sale_ix. unfold_derivations. derive_cases.
  all: try (split; [done | by intros [? _]]).
  use_discriminator ProcessSale.
  destruct (pack_cases "<Q" 8 amount eq_refl) as [[Hd ->]|[Hd ->]]; simpl;
    [|split; [done | intros (_ & _ & ? & _); done]].
  split; [by intros [= <-] | same_instruction ix].
Qed.

Lemma remove_affiliate_ix_Ok self merchant wallet authority mint ix :
  remove_affiliate_ix self merchant wallet = Ok ix ↔
    expected_accounts RemoveAffiliate
      (mkPrincipals (Keypair_pubkey merchant) wallet mint authority) = Ok (accounts ix)
    ∧ program_id ix = PROGRAM_ID
    ∧ data ix = discriminator RemoveAffiliate.
Proof.
  unfold remove_affiliate_ix. unfold_derivations. derive_cases.
  all: try (split; [done | by intros [? _]]).
  use_discriminator RemoveAffiliate.
  split; [by intros [= <-]|].
  intros ([= Ha] & Hp & Hd). destruct ix; simpl in *. by subst.
Qed.

Lemma deposit_escrow_ix_Ok self merchant wallet authority mint amount ix :
  deposit_escrow_ix self merchant mint amount = Ok ix ↔
    expected_accounts DepositEscrow
      (mkPrincipals (Keypair_pubkey merchant) wallet mint authority) = Ok (accounts ix)
    ∧ program_id ix = PROGRAM_ID
    ∧ 0 ≤ amount < 2 ^ 64
    ∧ data ix = discriminator DepositEscrow ++ le_bytes 8 amount.
Proof.
  unfold deposit_escrow_ix. unfold_derivations. derive_cases.
  all: try (split; [done | by intros [? _]]).
  use_discriminator DepositEscrow.
  destruct (pack_cases "<Q" 8 amount eq_refl) as [[Hd ->]|[Hd ->]]; simpl;
    [|split; [done | intros (_ & _ & ? & _); done]].
  split; [by intros [= <-] | same_instruction ix].
Qed.

Lemma withdraw_escrow_ix_Ok self merchant wallet authority mint amount ix :
  withdraw_escrow_ix self merchant mint amount = Ok ix ↔
    expected_accounts WithdrawEscrow
      (mkPrincipals (Keypair_pubkey merchant) wallet mint authority) = Ok (accounts ix)
    ∧ program_id ix = PROGRAM_ID
    ∧ 0 ≤ amount < 2 ^ 64
    ∧ data ix = discriminator WithdrawEscrow ++ le_bytes 8 amount.
Proof.
  unfold withdraw_escrow_ix. unfold_derivations. derive_cases.
  all: try (split; [done | by intros [? _]]).
  use_discriminator WithdrawEscrow.
  destruct (pack_cases "<Q" 8 amount eq_refl) as [[Hd ->]|[Hd ->]]; simpl;
    [|split; [done | intros (_ & _ & ? & _); done]].
  split; [by intros [= <-] | same_instruction ix].
Qed.

End Builders.

Lemma width_bound_intro (derives fits : Prop) (r : result Instruction) :
  Decision fits →
  (∀ ix, r = Ok ix → derives ∧ fits) →
  (derives → fits → is_Ok r) →
  (∀ e, r = Raise e → (e = PanicException ∧ ¬ derives) ∨ (e = StructError ∧ derives ∧ ¬ fits)) →
  width_bound_behaviour derives fits r.
Proof.
  intros Hdec HOk Hret HRaise. split.
  - intros Hfits.
    assert (∃ e, r = Raise e) as [e He].
    { apply not_Ok_Raise. intros ix Hix. by destruct (HOk ix Hix). }
    split; [eauto|]. intros Hder.
    destruct (HRaise e He) as [[_ ?]|[-> _]]; [done|exact He].
  - intros Hfits. split; [auto|].
    intros e He. destruct (HRaise e He) as [?|(_ & _ & ?)]; done.
Qed.

Section Raising.
Context `{Solders}.

Lemma initialize_pool_ix_Raise self merchant wallet authority mint rate dep e :
  initialize_pool_ix self merchant mint rate dep = Raise e →
  let c := mkPrincipals (Keypair_pubkey merchant) wallet mint authority in
  (e = PanicException ∧ ¬ derivable InitializePool c) ∨
  (e = StructError ∧ derivable InitializePool c
   ∧ ¬ (0 ≤ rate < 2 ^ 16 ∧ 0 ≤ dep < 2 ^ 64)).
Proof.
  unfold initialize_pool_ix, derivable, is_Ok. unfold_derivations. derive_cases.
  all: try (intros [= <-]; left; split; [done | by intros [? ?]]).
  use_discriminator InitializePool.
  destruct (pack_cases "<H" 2 rate eq_refl) as [[Hr ->]|[Hr ->]]; simpl;
    [|intros [= <-]; right; split_and!; [done|eauto|by intros [? _]]].
  destruct (pack_cases "<Q" 8 dep eq_refl) as [[Hd ->]|[Hd ->]]; simpl;
    [done|intros [= <-]; right; split_and!; [done|eauto|by intros [_ ?]]].
Qed.

Lemma process_sale_ix_Raise self authority merchant wallet mint amount e :
  process_sale_ix self authority merchant wallet mint amount = Raise e →
  let c := mkPrincipals merchant wallet mint (Keypair_pubkey authority) in
  (e = PanicException ∧ ¬ derivable ProcessSale c) ∨
  (e = StructError ∧ derivable ProcessSale c ∧ ¬ (0 ≤ amount < 2 ^ 64)).
Proof.
  unfold process_sale_ix, derivable, is_Ok. unfold_derivations. derive_cases.
  all: try (intros [= <-]; left; split; [done | by intros [? ?]]).
  use_discriminator ProcessSale.
  destruct (pack_cases "<Q" 8 amount eq_refl) as [[Hd ->]|[Hd ->]]; simpl;
    [done|intros [= <-]; right; split_and!; [done|eauto|done]].
Qed.

Lemma deposit_escrow_ix_Raise self merchant wallet authority mint amount e :
  deposit_escrow_ix self merchant mint amount = Raise e →
  let c := mkPrincipals (Keypair_pubkey merchant) wallet mint authority in
  (e = PanicException ∧ ¬ derivable DepositEscrow c) ∨
  (e = StructError ∧ derivable DepositEscrow c ∧ ¬ (0 ≤ amount < 2 ^ 64)).
Proof.
  unfold deposit_escrow_ix, derivable, is_Ok. unfold_derivations. derive_cases.
  all: try (intros [= <-]; left; split; [done | by intros [? ?]]).
  use_discriminator DepositEscrow.
  destruct (pack_cases "<Q" 8 amount eq_refl) as [[Hd ->]|[Hd ->]]; simpl;
    [done|intros [= <-]; right; split_and!; [done|eauto|done]].
Qed.

Lemma withdraw_escrow_ix_Raise self merchant wallet authority mint amount e :
  withdraw_escrow_ix self merchant mint amount = Raise e →
  let c := mkPrincipals (Keypair_pubkey merchant) wallet mint authority in
  (e = PanicException ∧ ¬ derivable WithdrawEscrow c) ∨
  (e = StructError ∧ derivable WithdrawEscrow c ∧ ¬ (0 ≤ amount < 2 ^ 64)).
Proof.
  unfold withdraw_escrow_ix, derivable, is_Ok. unfold_derivations. derive_cases.
  all: try (intros [= <-]; left; split; [done | by intros [? ?]]).
  use_discriminator WithdrawEscrow.
  destruct (pack_cases "<Q" 8 amount eq_refl) as [[Hd ->]|[Hd ->]]; simpl;
    [done|intros [= <-]; right; split_and!; [done|eauto|done]].
Qed.

Lemma initialize_pool_ix_returns self merchant wallet authority mint rate dep :
  derivable InitializePool (mkPrincipals (Keypair_pubkey merchant) wallet mint authority) →
  0 ≤ rate < 2 ^ 16 → 0 ≤ dep < 2 ^ 64 →
  is_Ok (initialize_pool_ix self merchant mint rate dep).
Proof.
  intros [l Hl] Hr Hd.
  exists (mkInstruction PROGRAM_ID
            ((discriminator InitializePool ++ le_bytes 2 rate) ++ le_bytes 8 dep) l).
  by apply (initialize_pool_ix_Ok self merchant wallet authority).
Qed.

Lemma process_sale_ix_returns self authority merchant wallet mint amount :
  derivable ProcessSale (mkPrincipals merchant wallet mint (Keypair_pubkey authority)) →
  0 ≤ amount < 2 ^ 64 →
  is_Ok (process_sale_ix self authority merchant wallet mint amount).
Proof.
  intros [l Hl] Ha.
  exists (mkInstruction PROGRAM_ID (discriminator ProcessSale ++ le_bytes 8 amount) l).
  by apply process_sale_ix_Ok.
Qed.

Lemma deposit_escrow_ix_returns self merchant wallet authority mint amount :
  derivable DepositEscrow (mkPrincipals (Keypair_pubkey merchant) wallet mint authority) →
  0 ≤ amount < 2 ^ 64 →
  is_Ok (deposit_escrow_ix self merchant mint amount).
Proof.
  intros [l Hl] Ha.
  exists (mkInstruction PROGRAM_ID (discriminator DepositEscrow ++ le_bytes 8 amount) l).
  by apply (deposit_escrow_ix_Ok self merchant wallet authority).
Qed.

Lemma withdraw_escrow_ix_returns self merchant wallet authority mint amount :
  derivable WithdrawEscrow (mkPrincipals (Keypair_pubkey merchant) wallet mint authority) →
  0 ≤ amount < 2 ^ 64 →
  is_Ok (withdraw_escrow_ix self merchant mint amount).
Proof.
  intros [l Hl] Ha.
  exists (mkInstruction PROGRAM_ID (discriminator WithdrawEscrow ++ le_bytes 8 amount) l).
  by apply (withdraw_escrow_ix_Ok self merchant wallet authority).
Qed.

End Raising.

(** ** Account tables *)

Lemma expected_accounts_flags `{Solders} (op : operation) (c : principals)
    (l : list AccountMeta) :
  expected_accounts op c = Ok l →
  (λ a, (is_signer a, is_writable a)) <$> l = table_flags op.
Proof.
  unfold expected_accounts, table_flags. intros Hl%mapM_Ok_inv.
  induction Hl as [|s a tbl l Ha _ IH]; [done|].
  apply bind_Ok_inv in Ha as (pk & _ & [= <-]).
  rewrite !fmap_cons. by f_equal.
Qed.

Lemma expected_accounts_length `{Solders} (op : operation) (c : principals)
    (l : list AccountMeta) :
  expected_accounts op c = Ok l → length l = length (account_table op).
Proof.
  unfold expected_accounts. intros Hl%mapM_Ok_inv.
  symmetry. by eapply Forall2_length.
Qed.

Lemma follows_table_intro `{Solders} (op : operation) (c : principals)
    (ix : Instruction) :
  expected_accounts op c = Ok (accounts ix) → follows_table op c ix.
Proof.
  intros Hix. split_and!; [done| |].
  - by eapply expected_accounts_length.
  - by eapply expected_accounts_flags.
Qed.

Lemma build_Ok_accounts `{Solders} (self : RedioContract) (k : call) (ix : Instruction) :
  build self k = Ok ix →
  expected_accounts (call_operation k) (call_principals k) = Ok (accounts ix).
Proof.
  destruct k as [m mint rate dep|m w ref|a m w mint amt|m w|m mint amt|m mint amt];
    simpl; intros Hix.
  - by apply (initialize_pool_ix_Ok self m (Keypair_pubkey m) (Keypair_pubkey m)) in Hix as [? _].
  - by apply (add_affiliate_ix_Ok self m w (Keypair_pubkey m) (Keypair_pubkey m)) in Hix as [? _].
  - by apply process_sale_ix_Ok in Hix as [? _].
  - by apply (remove_affiliate_ix_Ok self m w (Keypair_pubkey m) (Keypair_pubkey m)) in Hix as [? _].
  - by apply (deposit_escrow_ix_Ok self m (Keypair_pubkey m) (Keypair_pubkey m)) in Hix as [? _].
  - by apply (withdraw_escrow_ix_Ok self m (Keypair_pubkey m) (Keypair_pubkey m)) in Hix as [? _].
Qed.

Lemma build_Ok_data_prefix `{Solders} (self : RedioContract) (k : call) (ix : Instruction) :
  build self k = Ok ix →
  ∃ args, data ix = discriminator (call_operation k) ++ args.
Proof.
  destruct k as [m mint rate dep|m w ref|a m w mint amt|m w|m mint amt|m mint amt];
    simpl; intros Hix.
  - apply (initialize_pool_ix_Ok self m (Keypair_pubkey m) (Keypair_pubkey m)) in Hix
      as (_ & _ & _ & ->). rewrite <- (assoc_L (++)). eauto.
  - apply (add_affiliate_ix_Ok self m w (Keypair_pubkey m) (Keypair_pubkey m)) in Hix
      as (_ & _ & (b & Hb & _) & Hd). rewrite (Hd b Hb), <- (assoc_L (++)). eauto.
  - apply process_sale_ix_Ok in Hix as (_ & _ & _ & ->). eauto.
  - apply (remove_affiliate_ix_Ok self m w (Keypair_pubkey m) (Keypair_pubkey m)) in Hix
      as (_ & _ & ->). exists []. by rewrite app_nil_r.
  - apply (deposit_escrow_ix_Ok self m (Keypair_pubkey m) (Keypair_pubkey m)) in Hix
      as (_ & _ & _ & ->). eauto.
  - apply (withdraw_escrow_ix_Ok self m (Keypair_pubkey m) (Keypair_pubkey m)) in Hix
      as (_ & _ & _ & ->). eauto.
Qed.

Example account_table_lengths :
  length <$> (account_table <$>
    [InitializePool; AddAffiliate; ProcessSale; RemoveAffiliate; DepositEscrow;
     WithdrawEscrow]) = [9; 5; 11; 4; 7; 7]%nat.
Proof. reflexivity. Qed.

Lemma build_returns `{Solders} (self : RedioContract) (k : call) :
  derivable (call_operation k) (call_principals k) → arguments_fit k →
  is_Ok (build self k).
Proof.
  destruct k as [m mint rate dep|m w ref|a m w mint amt|m w|m mint amt|m mint amt];
    simpl; intros [l Hl] Hfit.
  - exists (mkInstruction PROGRAM_ID
              ((discriminator InitializePool ++ le_bytes 2 rate) ++ le_bytes 8 dep) l).
    apply (initialize_pool_ix_Ok self m (Keypair_pubkey m) (Keypair_pubkey m)). simpl.
    split; [done|]. split; [done|]. split; [lia|done].
  - destruct Hfit as (b & Hb & Hlen).
    exists (mkInstruction PROGRAM_ID
              ((discriminator AddAffiliate ++ le_bytes 4 (Z.of_nat (length b))) ++ b) l).
    apply (add_affiliate_ix_Ok self m w (Keypair_pubkey m) (Keypair_pubkey m)). simpl.
    split; [done|]. split; [done|]. split.
    + exists b. split; [done|lia].
    + intros b' Hb'. congruence.
  - exists (mkInstruction PROGRAM_ID (discriminator ProcessSale ++ le_bytes 8 amt) l).
    by apply process_sale_ix_Ok.
  - exists (mkInstruction PROGRAM_ID (discriminator RemoveAffiliate) l).
    by apply (remove_affiliate_ix_Ok self m w (Keypair_pubkey m) (Keypair_pubkey m)).
  - exists (mkInstruction PROGRAM_ID (discriminator DepositEscrow ++ le_bytes 8 amt) l).
    by apply (deposit_escrow_ix_Ok self m (Keypair_pubkey m) (Keypair_pubkey m)).
  - exists (mkInstruction PROGRAM_ID (discriminator WithdrawEscrow ++ le_bytes 8 amt) l).
    by apply (withdraw_escrow_ix_Ok self m (Keypair_pubkey m) (Keypair_pubkey m)).
Qed.

Lemma build_Ok_fits `{Solders} (self : RedioContract) (k : call) (ix : Instruction) :
  build self k = Ok ix →
  derivable (call_operation k) (call_principals k) ∧ arguments_fit k.
Proof.
  intros Hix. split; [apply build_Ok_accounts in Hix; by eexists|].
  destruct k as [m mint rate dep|m w ref|a m w mint amt|m w|m mint amt|m mint amt];
    simpl in *.
  - apply (initialize_pool_ix_Ok self m (Keypair_pubkey m) (Keypair_pubkey m)) in Hix
      as (_ & _ & Hfit & _). lia.
  - apply (add_affiliate_ix_Ok self m w (Keypair_pubkey m) (Keypair_pubkey m)) in Hix
      as (_ & _ & (b & Hb & Hlen) & _). exists b. split; [done|lia].
  - by apply process_sale_ix_Ok in Hix as (_ & _ & ? & _).
  - done.
  - by apply (deposit_escrow_ix_Ok self m (Keypair_pubkey m) (Keypair_pubkey m)) in Hix
      as (_ & _ & ? & _).
  - by apply (withdraw_escrow_ix_Ok self m (Keypair_pubkey m) (Keypair_pubkey m)) in Hix
      as (_ & _ & ? & _).
Qed.

Lemma sample_calls_ready (k : call) :
  k ∈ sample_calls →
  @derivable sample_solders (call_operation k) (call_principals k) ∧ arguments_fit k.
Proof.
  unfold sample_calls. intros Hk.
  repeat (apply elem_of_cons in Hk as [->|Hk]); [..|by apply elem_of_nil in Hk].
  - split; [by eexists|simpl; lia].
  - split; [by eexists|]. eexists. split; [vm_compute; reflexivity|simpl; lia].
  - split; [by eexists|simpl; lia].
  - split; [by eexists|done].
  - split; [by eexists|simpl; lia].
  - split; [by eexists|simpl; lia].
Defined.

(** C1.  Each of the six builders returns an instruction exactly when the
    addresses of its operation can be derived and its arguments fit their
    fields, and whatever the arguments, the instruction it returns carries
    the account list of section 4.2 for its operation: as many accounts as
    the table has slots, every slot holding the address of the table's role
    (supplied, derived or a fixed program) with the table's signer and
    writable flags. *)
Theorem account_list_follows_table `{Solders} (self : RedioContract) (k : call) :
  (is_Ok (build self k) ↔
   derivable (call_operation k) (call_principals k) ∧ arguments_fit k)
  ∧ (∀ ix, build self k = Ok ix →
           follows_table (call_operation k) (call_principals k) ix).
Proof.
  split; [split|].
  - intros [ix Hix]. by apply build_Ok_fits with self ix.
  - intros [Hder Hfit]. by apply build_returns.
  - intros ix Hix. by apply follows_table_intro, build_Ok_accounts with self.
Qed.

Lemma account_list_follows_table_witness :
  Forall (λ k, ∃ ix, @build sample_solders sample_self k = Ok ix
                     ∧ @follows_table sample_solders (call_operation k)
                         (call_principals k) ix
                     ∧ account_flags ix = table_flags (call_operation k))
    sample_calls
  ∧ table_flags InitializePool =
      [(false, true); (true, true); (false, true); (false, false);
       (false, true); (false, false); (false, false); (false, false);
       (false, false)]
  ∧ table_flags RemoveAffiliate =
      [(false, false); (false, true); (false, true); (true, false)].
Proof.
  split; [|split; reflexivity].
  apply Forall_forall. intros k Hk.
  destruct (@account_list_follows_table sample_solders sample_self k) as [Hret Hft].
  destruct (proj2 Hret (sample_calls_ready k Hk)) as [ix Hix].
  exists ix. split; [exact Hix|].
  split; [exact (Hft ix Hix)|]. by destruct (Hft ix Hix) as (_ & _ & ?).
Defined.

(** ** Instruction data *)

Lemma discriminator_of_app (op : operation) (ix : Instruction) (args : bytes) :
  data ix = discriminator op ++ args →
  discriminator_of ix = discriminator op ∧ argument_payload ix = args.
Proof.
  intros Hd. unfold discriminator_of, argument_payload. rewrite Hd. split.
  - apply take_app_length'. by rewrite length_discriminator.
  - apply drop_app_length'. by rewrite length_discriminator.
Qed.

Lemma discriminator_inj (op1 op2 : operation) :
  discriminator op1 = discriminator op2 → op1 = op2.
Proof. destruct op1, op2; first [reflexivity | vm_compute; discriminate]. Qed.

Lemma unpack_le_bytes (rate dep : Z) :
  0 ≤ rate < 2 ^ 16 → 0 ≤ dep < 2 ^ 64 →
  unpack_u16_u64 (le_bytes 2 rate ++ le_bytes 8 dep) = Some (rate, dep).
Proof.
  intros Hr Hd. unfold unpack_u16_u64.
  rewrite decide_True by (by rewrite length_app, !length_le_bytes).
  rewrite take_app_length' by (by rewrite length_le_bytes).
  rewrite drop_app_length' by (by rewrite length_le_bytes).
  by rewrite !le_uint_le_bytes_id.
Qed.

Lemma initialize_pool_ix_payload `{Solders} self merchant mint rate dep ix :
  initialize_pool_ix self merchant mint rate dep = Ok ix →
  (0 ≤ rate < 2 ^ 16 ∧ 0 ≤ dep < 2 ^ 64)
  ∧ discriminator_of ix = discriminator InitializePool
  ∧ argument_payload ix = le_bytes 2 rate ++ le_bytes 8 dep.
Proof.
  intros Hix.
  apply (initialize_pool_ix_Ok self merchant (Keypair_pubkey merchant)
           (Keypair_pubkey merchant)) in Hix as (_ & _ & Hfit & Hd).
  split; [done|]. apply discriminator_of_app. by rewrite Hd, <- (assoc_L (++)).
Qed.

(** C2.  For a commission rate that fits sixteen bits and a deposit that fits
    sixty-four, [initialize_pool_ix] returns whenever its addresses can be
    derived, and reading the bytes after the 8-byte discriminator as a
    little-endian u16 followed by a little-endian u64 gives the two arguments
    back; the specification's instance is [(500, 1_000_000)]. *)
Theorem packing_round_trip `{Solders} (self : RedioContract) (merchant : Keypair)
    (usdc_mint : Pubkey) (commission_rate initial_deposit : Z) :
  0 ≤ commission_rate ≤ 65535 → 0 ≤ initial_deposit < 2 ^ 64 →
  let k := InitializePoolIx merchant usdc_mint commission_rate initial_deposit in
  (derivable InitializePool (call_principals k) → is_Ok (build self k)) ∧
  (∀ ix, build self k = Ok ix →
         unpack_u16_u64 (argument_payload ix) = Some (commission_rate, initial_deposit)).
Proof.
  intros Hr Hd k. split.
  - intros Hder. apply initialize_pool_ix_returns with
      (Keypair_pubkey merchant) (Keypair_pubkey merchant); [done|lia|done].
  - intros ix Hix. simpl in Hix.
    apply initialize_pool_ix_payload in Hix as (_ & _ & ->).
    apply unpack_le_bytes; [lia|done].
Qed.

Lemma packing_round_trip_witness :
  ∃ ix, @initialize_pool_ix sample_solders sample_self (sample_keypair 1)
          (sample_key 3) 500 1000000 = Ok ix
        ∧ Z_of_byte <$> argument_payload ix = [244; 1; 64; 66; 15; 0; 0; 0; 0; 0]
        ∧ unpack_u16_u64 (argument_payload ix) = Some (500, 1000000).
Proof.
  destruct (@packing_round_trip sample_solders sample_self (sample_keypair 1)
              (sample_key 3) 500 1000000) as [Hret Hdec]; [lia|lia|].
  destruct Hret as [ix Hix]; [by eexists|].
  exists ix. split; [exact Hix|]. split; [|by apply Hdec].
  vm_compute in Hix. injection Hix as <-. reflexivity.
Defined.

(** C5.  The table holds six discriminators, one per operation, each eight
    bytes long and no two equal; each of the six builders returns whenever
    its addresses can be derived and its arguments fit, and the data of the
    instruction it returns starts with the discriminator of that builder's
    operation, so the first eight bytes tell which of the six operations was
    encoded. *)
Theorem discriminator_identifies_operation `{Solders} :
  (∀ name d, DISCRIMINATORS !! name = Some d ↔
             ∃ op, name = operation_name op ∧ d = discriminator op)
  ∧ (∀ op, length (discriminator op) = 8%nat)
  ∧ (∀ op1 op2, op1 ≠ op2 → discriminator op1 ≠ discriminator op2)
  ∧ (∀ self k,
       derivable (call_operation k) (call_principals k) → arguments_fit k →
       ∃ ix, build self k = Ok ix
             ∧ discriminator_of ix = discriminator (call_operation k))
  ∧ (∀ self k ix, build self k = Ok ix →
                  discriminator_of ix = discriminator (call_operation k))
  ∧ (∀ self k1 k2 ix1 ix2,
       build self k1 = Ok ix1 → build self k2 = Ok ix2 →
       discriminator_of ix1 = discriminator_of ix2 →
       call_operation k1 = call_operation k2).
Proof.
  assert (Hprefix : ∀ self k ix, build self k = Ok ix →
            discriminator_of ix = discriminator (call_operation k)).
  { intros self k ix Hix. apply build_Ok_data_prefix in Hix as [args Hd].
    by apply discriminator_of_app in Hd as [? _]. }
  split_and!.
  - intros name d. split.
    + intros Hd. apply DISCRIMINATORS_elem in Hd as (op & -> & Hd).
      exists op. split; [done|]. unfold discriminator. by rewrite Hd.
    + intros (op & -> & ->). destruct op; vm_compute; reflexivity.
  - apply length_discriminator.
  - intros op1 op2 Hne Heq. by apply Hne, discriminator_inj.
  - intros self k Hder Hfit. destruct (build_returns self k Hder Hfit) as [ix Hix].
    exists ix. split; [done|]. by apply Hprefix with self.
  - exact Hprefix.
  - intros self k1 k2 ix1 ix2 H1 H2 Heq.
    apply Hprefix in H1, H2. apply discriminator_inj. congruence.
Qed.

Lemma discriminator_identifies_operation_witness :
  Forall (λ k, ∃ ix, @build sample_solders sample_self k = Ok ix
                     ∧ discriminator_of ix = discriminator (call_operation k))
    sample_calls
  ∧ (λ op, Z_of_byte <$> discriminator op) <$> (call_operation <$> sample_calls) =
      [[95; 180; 10; 172; 84; 174; 232; 40];
       [221; 239; 60; 159; 213; 45; 221; 87];
       [103; 228; 248; 104; 78; 46; 193; 82];
       [146; 218; 182; 122; 118; 1; 69; 31];
       [226; 112; 158; 176; 178; 118; 153; 128];
       [81; 84; 226; 128; 245; 47; 96; 104]].
Proof.
  split; [|vm_compute; reflexivity].
  apply Forall_forall. intros k Hk.
  destruct (@discriminator_identifies_operation sample_solders)
    as (_ & _ & _ & Hret & _).
  destruct (sample_calls_ready k Hk) as [Hder Hfit].
  exact (Hret sample_self k Hder Hfit).
Defined.

(** C7.  With a deposit that fits its field and derivable addresses,
    [initialize_pool_ix] returns an instruction for the commission rates 0 and
    10000 and equally for every rate above 10000 up to 65535: there is no
    business-rule bound, and the rate is laid down as given, the two bytes
    after the discriminator reading back as the rate. *)
Theorem commission_rate_not_validated `{Solders} (self : RedioContract)
    (merchant : Keypair) (usdc_mint : Pubkey) (initial_deposit : Z) :
  0 ≤ initial_deposit < 2 ^ 64 →
  derivable InitializePool
    (call_principals (InitializePoolIx merchant usdc_mint 0 initial_deposit)) →
  ∀ commission_rate,
    commission_rate = 0 ∨ commission_rate = 10000 ∨ 10000 < commission_rate ≤ 65535 →
    ∃ ix, initialize_pool_ix self merchant usdc_mint commission_rate initial_deposit = Ok ix
          ∧ argument_payload ix = le_bytes 2 commission_rate ++ le_bytes 8 initial_deposit
          ∧ le_uint (take 2 (argument_payload ix)) = commission_rate.
Proof.
  intros Hd Hder rate Hrate.
  assert (Hr : 0 ≤ rate < 2 ^ 16) by lia.
  destruct (initialize_pool_ix_returns self merchant (Keypair_pubkey merchant)
              (Keypair_pubkey merchant) usdc_mint rate initial_deposit Hder Hr Hd)
    as [ix Hix].
  exists ix. split; [done|].
  apply initialize_pool_ix_payload in Hix as (_ & _ & ->). split; [done|].
  rewrite take_app_length' by (by rewrite length_le_bytes).
  by apply le_uint_le_bytes_id.
Qed.

Lemma commission_rate_not_validated_witness :
  ∃ ix, @initialize_pool_ix sample_solders sample_self (sample_keypair 1)
          (sample_key 3) 10001 0 = Ok ix
        ∧ le_uint (take 2 (argument_payload ix)) = 10001.
Proof.
  destruct (@commission_rate_not_validated sample_solders sample_self
              (sample_keypair 1) (sample_key 3) 0) with (commission_rate := 10001)
    as (ix & Hix & _ & Hrate); [lia|by eexists|lia|].
  by exists ix.
Defined.

(** C10.  The fixed field widths are the only limit the builders impose on
    their integer arguments.  [initialize_pool_ix] raises, and returns no
    instruction, whenever the commission rate is outside [0, 65535] or the
    deposit outside [0, 2^64) (a [struct.error] once the addresses have been
    derived); within those widths it returns whenever the addresses can be
    derived, and the only thing it can raise is the derivation's panic.  The
    u64 amounts of [process_sale_ix], [deposit_escrow_ix] and
    [withdraw_escrow_ix] behave the same way. *)
Theorem width_limit `{Solders} (self : RedioContract) (merchant authority : Keypair)
    (seller affiliate_wallet usdc_mint : Pubkey)
    (commission_rate initial_deposit amount : Z) :
  let init := InitializePoolIx merchant usdc_mint commission_rate initial_deposit in
  let sale := ProcessSaleIx authority seller affiliate_wallet usdc_mint amount in
  let deposit := DepositEscrowIx merchant usdc_mint amount in
  let withdraw := WithdrawEscrowIx merchant usdc_mint amount in
  width_bound_behaviour
    (derivable InitializePool (call_principals init))
    (0 ≤ commission_rate ≤ 65535 ∧ 0 ≤ initial_deposit < 2 ^ 64)
    (build self init)
  ∧ width_bound_behaviour
      (derivable ProcessSale (call_principals sale)) (0 ≤ amount < 2 ^ 64)
      (build self sale)
  ∧ width_bound_behaviour
      (derivable DepositEscrow (call_principals deposit)) (0 ≤ amount < 2 ^ 64)
      (build self deposit)
  ∧ width_bound_behaviour
      (derivable WithdrawEscrow (call_principals withdraw)) (0 ≤ amount < 2 ^ 64)
      (build self withdraw).
Proof.
  simpl. set (m := Keypair_pubkey merchant). split_and!.
  - apply width_bound_intro; [apply _| | |].
    + intros ix Hix.
      apply (initialize_pool_ix_Ok self merchant m m) in Hix as (Ha & _ & Hfit & _).
      split; [by eexists|lia].
    + intros Hder [Hr Hd]. apply initialize_pool_ix_returns with m m; [done|lia|done].
    + intros e He.
      destruct (initialize_pool_ix_Raise self merchant m m _ _ _ _ He) as [?|(? & ? & Hn)];
        [by left|right]. split_and!; [done..|]. intros [? ?]. apply Hn. lia.
  - apply width_bound_intro; [apply _| | |].
    + intros ix Hix. apply process_sale_ix_Ok in Hix as (Ha & _ & Hfit & _).
      split; [by eexists|done].
    + intros Hder Hfit. by apply process_sale_ix_returns.
    + intros e He. exact (process_sale_ix_Raise self _ _ _ _ _ e He).
  - apply width_bound_intro; [apply _| | |].
    + intros ix Hix.
      apply (deposit_escrow_ix_Ok self merchant m m) in Hix as (Ha & _ & Hfit & _).
      split; [by eexists|done].
    + intros Hder Hfit. by apply deposit_escrow_ix_returns with m m.
    + intros e He. exact (deposit_escrow_ix_Raise self merchant m m _ _ e He).
  - apply width_bound_intro; [apply _| | |].
    + intros ix Hix.
      apply (withdraw_escrow_ix_Ok self merchant m m) in Hix as (Ha & _ & Hfit & _).
      split; [by eexists|done].
    + intros Hder Hfit. by apply withdraw_escrow_ix_returns with m m.
    + intros e He. exact (withdraw_escrow_ix_Raise self merchant m m _ _ e He).
Qed.

Lemma width_limit_witness :
  @initialize_pool_ix sample_solders sample_self (sample_keypair 1) (sample_key 3)
     65536 0 = Raise StructError
  ∧ @process_sale_ix sample_solders sample_self (sample_keypair 4) (sample_key 1)
      (sample_key 2) (sample_key 3) (-1) = Raise StructError
  ∧ is_Ok (@deposit_escrow_ix sample_solders sample_self (sample_keypair 1)
             (sample_key 3) (2 ^ 64 - 1)).
Proof.
  destruct (@width_limit sample_solders sample_self (sample_keypair 1)
              (sample_keypair 4) (sample_key 1) (sample_key 2) (sample_key 3)
              65536 0 (-1)) as ([Hinit _] & [Hsale _] & _).
  destruct (@width_limit sample_solders sample_self (sample_keypair 1)
              (sample_keypair 4) (sample_key 1) (sample_key 2) (sample_key 3)
              0 0 (2 ^ 64 - 1)) as (_ & _ & [_ Hdep] & _).
  split_and!.
  - apply Hinit; [lia|by eexists].
  - apply Hsale; [lia|by eexists].
  - apply Hdep; [lia|by eexists].
Defined.

(** ** The reference id of [add_affiliate_ix] *)

Lemma add_affiliate_ix_returns `{Solders} self merchant wallet authority mint ref_id b :
  derivable AddAffiliate (mkPrincipals (Keypair_pubkey merchant) wallet mint authority) →
  encode_utf8 ref_id = Ok b → Z.of_nat (length b) < 2 ^ 32 →
  is_Ok (add_affiliate_ix self merchant wallet ref_id).
Proof.
  intros [l Hl] Hb Hlen.
  exists (mkInstruction PROGRAM_ID
            ((discriminator AddAffiliate ++ le_bytes 4 (Z.of_nat (length b))) ++ b) l).
  apply (add_affiliate_ix_Ok self merchant wallet authority mint). simpl.
  split_and!; [done..| |].
  - exists b. split; [done|lia].
  - intros b' Hb'. congruence.
Qed.

Lemma add_affiliate_ix_payload `{Solders} self merchant wallet ref_id b ix :
  encode_utf8 ref_id = Ok b →
  add_affiliate_ix self merchant wallet ref_id = Ok ix →
  Z.of_nat (length b) < 2 ^ 32
  ∧ discriminator_of ix = discriminator AddAffiliate
  ∧ argument_payload ix = le_bytes 4 (Z.of_nat (length b)) ++ b.
Proof.
  intros Hb Hix.
  apply (add_affiliate_ix_Ok self merchant wallet (Keypair_pubkey merchant)
           (Keypair_pubkey merchant)) in Hix as (_ & _ & (b' & Hb' & Hlen) & Hd).
  assert (b' = b) as -> by congruence. split; [lia|].
  apply discriminator_of_app. by rewrite (Hd b Hb), <- (assoc_L (++)).
Qed.

Example encode_AFF001 : encode_utf8 (str_lit "AFF001") = Ok (bytes_lit "AFF001").
Proof. vm_compute. reflexivity. Qed.

(** C3, as the specification words it, fails: the data [add_affiliate_ix]
    produces for "AFF001" starts with the discriminator, so its first four
    bytes read 2671570909 and bytes 4 to 9 are not the text. *)
Lemma length_prefix_not_at_start :
  ∃ ix, @add_affiliate_ix sample_solders sample_self (sample_keypair 1)
          (sample_key 2) (str_lit "AFF001") = Ok ix
        ∧ Z_of_byte <$> data ix =
            [221; 239; 60; 159; 213; 45; 221; 87; 6; 0; 0; 0; 65; 70; 70; 48; 48; 49]
        ∧ le_uint (take 4 (data ix)) = 2671570909
        ∧ le_uint (take 4 (data ix)) ≠ 6
        ∧ take 6 (drop 4 (data ix)) ≠ bytes_lit "AFF001".
Proof.
  eexists. split; [vm_compute; reflexivity|].
  split_and!; [reflexivity|reflexivity|discriminate|discriminate].
Qed.

(** C3, amended.  The data [add_affiliate_ix] returns for "AFF001" is the
    [add_affiliate] discriminator, then four bytes that read 6 little-endian,
    then the six ASCII bytes of the text and nothing more; it is returned
    whenever the addresses can be derived. *)
Theorem length_prefix_follows_discriminator `{Solders} (self : RedioContract)
    (merchant : Keypair) (affiliate_wallet : Pubkey) :
  let k := AddAffiliateIx merchant affiliate_wallet (str_lit "AFF001") in
  (derivable AddAffiliate (call_principals k) → is_Ok (build self k)) ∧
  (∀ ix, build self k = Ok ix →
         discriminator_of ix = discriminator AddAffiliate
         ∧ le_uint (take 4 (argument_payload ix)) = 6
         ∧ drop 4 (argument_payload ix) = bytes_lit "AFF001").
Proof.
  simpl. split.
  - intros Hder.
    by apply add_affiliate_ix_returns with
      (Keypair_pubkey merchant) (Keypair_pubkey merchant) (bytes_lit "AFF001").
  - intros ix Hix.
    apply (add_affiliate_ix_payload _ _ _ _ _ _ encode_AFF001) in Hix as (_ & -> & ->).
    done.
Qed.

Lemma length_prefix_follows_discriminator_witness :
  ∃ ix, @add_affiliate_ix sample_solders sample_self (sample_keypair 1)
          (sample_key 2) (str_lit "AFF001") = Ok ix
        ∧ le_uint (take 4 (argument_payload ix)) = 6
        ∧ drop 4 (argument_payload ix) = bytes_lit "AFF001".
Proof.
  destruct (@length_prefix_follows_discriminator sample_solders sample_self
              (sample_keypair 1) (sample_key 2)) as [Hret Hdata].
  destruct Hret as [ix Hix]; [by eexists|].
  exists ix. split; [exact Hix|]. by destruct (Hdata ix Hix) as (_ & ? & ?).
Defined.

(** ** Address derivation *)

(** C4.  A derivation depends on nothing but its argument addresses and the
    library's search: two runs (two calls, or two processes, each with its own
    copy of the library) with the same arguments give the same outcome, that
    is the same address bytes and the same bump, or the same failure. *)
Theorem derivations_deterministic (run1 run2 : Solders) :
  (∀ seeds program,
     @try_find_program_address run1 seeds program =
     @try_find_program_address run2 seeds program) →
  ∀ merchant pool wallet owner mint,
    @find_pool_pda run1 merchant = @find_pool_pda run2 merchant
    ∧ @find_escrow_authority_pda run1 pool = @find_escrow_authority_pda run2 pool
    ∧ @find_affiliate_pda run1 pool wallet = @find_affiliate_pda run2 pool wallet
    ∧ @find_associated_token_address run1 owner mint =
      @find_associated_token_address run2 owner mint
    ∧ (∀ a1 b1 a2 b2,
         @find_escrow_authority_pda run1 pool = Ok (a1, b1) →
         @find_escrow_authority_pda run2 pool = Ok (a2, b2) →
         Pubkey_bytes a1 = Pubkey_bytes a2 ∧ b1 = b2).
Proof.
  intros Hsame merchant pool wallet owner mint.
  unfold find_pool_pda, find_escrow_authority_pda, find_affiliate_pda,
    find_associated_token_address, Pubkey_find_program_address.
  rewrite !Hsame. split_and!; [done..|].
  intros a1 b1 a2 b2 H1 H2. rewrite H1 in H2. by injection H2 as -> ->.
Qed.

Lemma derivations_deterministic_witness :
  @find_escrow_authority_pda sample_solders (sample_key 7) =
  @find_escrow_authority_pda sample_solders (sample_key 7)
  ∧ ∃ a b, @find_escrow_authority_pda sample_solders (sample_key 7) = Ok (a, b).
Proof.
  destruct (derivations_deterministic sample_solders sample_solders
              (λ _ _, eq_refl) (sample_key 1) (sample_key 7) (sample_key 2)
              (sample_key 1) (sample_key 3)) as (_ & Hea & _).
  split; [exact Hea|]. by eexists _, _.
Defined.

(** C6.  The seeds of the four derivations: the tag "pool" and the merchant;
    the tag "escrow_authority" and the pool; the tag "affiliate", the pool and
    the wallet, all three under the program identifier; and the owner, the
    token program and the mint under the associated-token program, which is a
    different, fixed program.  Only the address of the last is returned. *)
Theorem derivation_seeds `{Solders} (merchant pool wallet owner mint : Pubkey) :
  find_pool_pda merchant =
    Pubkey_find_program_address [bytes_lit "pool"; Pubkey_bytes merchant] PROGRAM_ID
  ∧ find_escrow_authority_pda pool =
      Pubkey_find_program_address
        [bytes_lit "escrow_authority"; Pubkey_bytes pool] PROGRAM_ID
  ∧ find_affiliate_pda pool wallet =
      Pubkey_find_program_address
        [bytes_lit "affiliate"; Pubkey_bytes pool; Pubkey_bytes wallet] PROGRAM_ID
  ∧ find_associated_token_address owner mint =
      fst <$> Pubkey_find_program_address
        [Pubkey_bytes owner; Pubkey_bytes TOKEN_PROGRAM_ID; Pubkey_bytes mint]
        ASSOCIATED_TOKEN_PROGRAM_ID
  ∧ Pubkey_from_string "CFQoHeX28aKhpgsLCSGM2zpou6RkRrwRoHVToWS2B6tQ" = Ok PROGRAM_ID
  ∧ Pubkey_from_string "TokenkegQfeZyiNwAJbNbGKPFXCWuBvf9Ss623VQ5DA" = Ok TOKEN_PROGRAM_ID
  ∧ Pubkey_from_string "ATokenGPvbdGVxr1b2hvZbsiqW5xWH25efTNsLJA8knL"
      = Ok ASSOCIATED_TOKEN_PROGRAM_ID
  ∧ ASSOCIATED_TOKEN_PROGRAM_ID ≠ PROGRAM_ID.
Proof.
  split_and!.
  - reflexivity.
  - reflexivity.
  - reflexivity.
  - unfold find_associated_token_address.
    by destruct (Pubkey_find_program_address [_; _; _] _).
  - vm_compute. reflexivity.
  - vm_compute. reflexivity.
  - vm_compute. reflexivity.
  - discriminate.
Qed.

(** Distinct wallets give distinct seed tuples for the affiliate address;
    whether the derived addresses differ is then up to the library's hash. *)
Lemma affiliate_seeds_inj (pool wallet_a wallet_b : Pubkey) :
  [bytes_lit "affiliate"; Pubkey_bytes pool; Pubkey_bytes wallet_a] =
  [bytes_lit "affiliate"; Pubkey_bytes pool; Pubkey_bytes wallet_b] →
  wallet_a = wallet_b.
Proof. intros [= Hw]. by apply Pubkey_bytes_inj. Qed.

(** ** The IDL fix-up *)

Lemma split_head (sep : ascii) (s : string) :
  ∃ c rest, split sep s = c :: rest
    ∧ (∀ ch, ch ∈ String.list_ascii_of_string c → ch ≠ sep)
    ∧ (s = c ∨ ∃ r, s = (c +:+ String sep r)%string).
Proof.
  induction s as [|a s (c & rest & Hs & Hno & Hc)]; simpl.
  - exists EmptyString, []. split_and!; [done| |by left].
    intros ch Hch. by apply elem_of_nil in Hch.
  - case_decide as Ha.
    + subst a. exists EmptyString, (split sep s). split_and!; [done| |].
      * intros ch Hch. by apply elem_of_nil in Hch.
      * right. by exists s.
    + rewrite Hs. exists (String a c), rest. split_and!; [done| |].
      * simpl. intros ch [->|Hch]%elem_of_cons; [congruence|by apply Hno].
      * destruct Hc as [->|[r ->]]; [by left|right; by exists r].
Qed.

Lemma split_first_component (path : string) :
  ∃ c, head (split "." path) = Some c ∧ first_component_of path c.
Proof.
  destruct (split_head "." path) as (c & rest & Hs & Hno & Hc).
  exists c. rewrite Hs. split; [done|]. split; [done|].
  destruct Hc as [->|[r ->]]; [by left|right; by exists r].
Qed.

Lemma fix_seed_fixed (seed seed' : json) :
  fix_seed seed = Ok seed' → seed_fixed seed seed'.
Proof.
  destruct seed as [| | | | |l|d]; try done. simpl.
  intros Hs. apply bind_Ok_inv in Hs as (d1 & Hd1 & [= <-]).
  exists d, (delete "account" d1).
  split_and!; [done|done|apply lookup_delete_eq| |].
  - intros p Hkind Hpath. rewrite Hkind, Hpath in Hd1. simpl in Hd1.
    injection Hd1 as <-.
    destruct (split_first_component p) as (c & -> & Hc). simpl.
    exists c. split; [|done].
    by rewrite lookup_delete_ne, lookup_insert_eq.
  - intros k Hacc Hpath. rewrite lookup_delete_ne by done.
    destruct (_ && _) in Hd1.
    + destruct (d !! "path") as [[]|]; try done. injection Hd1 as <-.
      by rewrite lookup_insert_ne.
    + by injection Hd1 as <-.
Qed.

Lemma fix_seed_returns (seed : json) : seed_well_formed seed → is_Ok (fix_seed seed).
Proof.
  intros (d & -> & Hpath). simpl.
  destruct (d !! "kind") as [[| | | |k| |]|] eqn:Hk; simpl; try by eexists.
  case_bool_decide as Hacc; simpl; [|by eexists]. subst k.
  destruct (Hpath eq_refl) as [->|[p ->]]; simpl; by eexists.
Qed.

Lemma fix_seeds_spec (pda pda' : gmap string json) :
  fix_seeds pda = Ok pda' →
  (∀ k, k ≠ "seeds" → pda' !! k = pda !! k)
  ∧ (∀ seeds, pda !! "seeds" = Some (JList seeds) →
       ∃ seeds', pda' !! "seeds" = Some (JList seeds')
                 ∧ Forall2 seed_fixed seeds seeds').
Proof.
  unfold fix_seeds. destruct (pda !! "seeds") as [[| | | |s|l|d]|] eqn:Hs; try done.
  - case_decide; [|done]. by intros [= <-].
  - intros Hl. apply bind_Ok_inv in Hl as (l' & Hl' & [= <-]). split.
    + intros k Hk. by rewrite lookup_insert_ne.
    + intros seeds [= <-]. exists l'. rewrite lookup_insert_eq. split; [done|].
      apply mapM_Ok_inv in Hl'. eapply Forall2_impl; [exact Hl'|].
      intros x y Hxy. by apply fix_seed_fixed.
  - case_decide; [|done]. by intros [= <-].
  - by intros [= <-].
Qed.

Lemma fix_seeds_returns (pda : gmap string json) :
  pda_well_formed (JDict pda) → is_Ok (fix_seeds pda).
Proof.
  intros (d & [= <-] & Hseeds). unfold fix_seeds.
  destruct Hseeds as [->|(seeds & -> & Hwf)]; [by eexists|].
  destruct (mapM_Ok_intro fix_seed seeds) as [l' Hl'].
  { eapply Forall_impl; [exact Hwf|]. apply fix_seed_returns. }
  rewrite Hl'. by eexists.
Qed.

Lemma fix_program_spec (pda : gmap string json) :
  fix_program pda !! "program" = program_kept (pda !! "program")
  ∧ ∀ k, k ≠ "program" → fix_program pda !! k = pda !! k.
Proof.
  unfold fix_program, program_kept.
  destruct (pda !! "program") as [prog|] eqn:Hprog; [|done].
  destruct prog as [| | | | | |g]; simpl;
    try (split; [apply lookup_delete_eq|by intros; apply lookup_delete_ne]).
  destruct (g !! "kind"), (g !! "value"); simpl;
    first [done | split; [apply lookup_delete_eq|by intros; apply lookup_delete_ne]].
Qed.

Lemma setdefault_lookup (k k' : string) (v : json) (d : gmap string json) :
  setdefault k v d !! k' =
  if decide (k = k') then Some (default v (d !! k)) else d !! k'.
Proof.
  unfold setdefault. destruct (d !! k) as [x|] eqn:Hk; case_decide; subst; simpl.
  - done.
  - done.
  - by rewrite lookup_insert_eq.
  - by rewrite lookup_insert_ne.
Qed.

Lemma filter_allowed_lookup (account : gmap string json) (k : string) :
  filter (λ kv, kv.1 ∈ allowed_keys) account !! k =
  if decide (k ∈ allowed_keys) then account !! k else None.
Proof.
  rewrite map_lookup_filter. destruct (account !! k) as [x|]; simpl.
  - destruct (decide (k ∈ allowed_keys)).
    + by rewrite option_guard_True.
    + by rewrite option_guard_False.
  - by case_decide.
Qed.

Lemma allowed_keys_elem (k : string) :
  k ∈ allowed_keys ↔
  k = "name" ∨ k = "writable" ∨ k = "signer" ∨ k = "pda" ∨ k = "address".
Proof. unfold allowed_keys. rewrite !elem_of_union, !elem_of_singleton. tauto. Qed.

(** The dict after the comprehension and the two [setdefault] calls. *)
Lemma defaults_lookup (account : gmap string json) (k : string) :
  setdefault "signer" (JBool false)
    (setdefault "writable" (JBool false)
       (filter (λ kv, kv.1 ∈ allowed_keys) account)) !! k =
  if decide (k = "signer") then Some (default (JBool false) (account !! "signer"))
  else if decide (k = "writable") then Some (default (JBool false) (account !! "writable"))
  else if decide (k ∈ allowed_keys) then account !! k
  else None.
Proof.
  rewrite !setdefault_lookup, !filter_allowed_lookup.
  assert (Hs : "signer" ∈ allowed_keys) by (apply allowed_keys_elem; auto).
  assert (Hw : "writable" ∈ allowed_keys) by (apply allowed_keys_elem; auto).
  repeat case_decide; subst; first [done | congruence].
Qed.

Lemma fix_pda_dict (pda : gmap string json) (r : json) :
  fix_pda (JDict pda) = Ok r →
  ∃ pda', r = JDict pda'
    ∧ pda' !! "program" = program_kept (pda !! "program")
    ∧ ∀ seeds, pda !! "seeds" = Some (JList seeds) →
        ∃ seeds', pda' !! "seeds" = Some (JList seeds')
                  ∧ Forall2 seed_fixed seeds seeds'.
Proof.
  simpl. intros Hr. apply bind_Ok_inv in Hr as (d & Hd & [= <-]).
  apply fix_seeds_spec in Hd as [Hother Hseeds].
  destruct (fix_program_spec d) as [Hprog Hkeep].
  exists (fix_program d). split_and!; [done| |].
  - by rewrite Hprog, Hother.
  - intros seeds Hs. destruct (Hseeds seeds Hs) as (seeds' & Hs' & Hfix).
    exists seeds'. by rewrite Hkeep.
Qed.

(** C9.  On a dict-shaped account, [fix_account] returns for every
    well-formed IDL account, and whenever it returns the result is a dict that
    has only keys among name, writable, signer, pda and address; writable and
    signer are present, with the given value or [False] when it was missing;
    in the pda every seed has lost its "account" entry and, when its kind is
    "account" and it has a path, the path is cut down to its first
    dot-separated component; and the pda's "program" entry is kept only if it
    is a dict with both a "kind" and a "value" key. *)
Theorem fix_account_dict (account : gmap string json) :
  (account_well_formed account → is_Ok (fix_account (JDict account))) ∧
  (∀ r, fix_account (JDict account) = Ok r →
     ∃ fixed, r = JDict fixed
       ∧ dom fixed ⊆ allowed_keys
       ∧ fixed !! "writable" = Some (default (JBool false) (account !! "writable"))
       ∧ fixed !! "signer" = Some (default (JBool false) (account !! "signer"))
       ∧ (∀ pda, account !! "pda" = Some (JDict pda) →
            ∃ pda', fixed !! "pda" = Some (JDict pda')
              ∧ pda' !! "program" = program_kept (pda !! "program")
              ∧ ∀ seeds, pda !! "seeds" = Some (JList seeds) →
                  ∃ seeds', pda' !! "seeds" = Some (JList seeds')
                            ∧ Forall2 seed_fixed seeds seeds')).
Proof.
  unfold fix_account.
  set (base := setdefault "signer" _ _).
  assert (Hbase : ∀ k, base !! k = _) by (intros k; apply defaults_lookup).
  assert (Hpda : base !! "pda" = account !! "pda").
  { rewrite Hbase. repeat case_decide; try done.
    all: exfalso; match goal with Hn : _ ∉ _ |- _ => apply Hn end;
      apply allowed_keys_elem; auto. }
  assert (Hdom : ∀ k, is_Some (base !! k) → k ∈ allowed_keys).
  { intros k. rewrite Hbase. rewrite allowed_keys_elem.
    repeat case_decide; subst; auto.
    - intros _. by apply allowed_keys_elem.
    - by intros [? ?]. }
  split.
  - intros [Hnone|(pda & Hsome & Hwf)].
    + rewrite Hpda, Hnone. by eexists.
    + rewrite Hpda, Hsome. destruct Hwf as (d & -> & Hseeds). simpl.
      destruct (fix_seeds_returns d) as [d' ->]; [by exists d|]. by eexists.
  - intros r. rewrite Hpda.
    destruct (account !! "pda") as [pda|] eqn:Hacc.
    + intros Hr. apply bind_Ok_inv in Hr as (pda' & Hfix & [= <-]).
      exists (<["pda" := pda']> base). split_and!; [done| | | |].
      * intros k [x Hk]%elem_of_dom. rewrite lookup_insert in Hk.
        case_decide; [subst; apply allowed_keys_elem; auto|apply Hdom; eauto].
      * rewrite lookup_insert_ne by done. by rewrite Hbase.
      * rewrite lookup_insert_ne by done. by rewrite Hbase.
      * intros d [= ->]. apply fix_pda_dict in Hfix as (d' & -> & Hprog & Hseeds).
        exists d'. by rewrite lookup_insert_eq.
    + intros [= <-]. exists base. split_and!; [done| | | |done].
      * intros k [x Hk]%elem_of_dom. apply Hdom. eauto.
      * by rewrite Hbase.
      * by rewrite Hbase.
Qed.

Example fix_account_sample :
  fix_account (JDict sample_account) =
  Ok (JDict (list_to_map
    [("name", JStr "affiliate"); ("writable", JBool true); ("signer", JBool false);
     ("pda", JDict (list_to_map
        [("seeds", JList
            [JDict sample_seed_const;
             JDict (list_to_map [("kind", JStr "account"); ("path", JStr "pool")])])]))])).
Proof. vm_compute. reflexivity. Qed.

Example fix_account_ill_typed :
  fix_account (JDict (list_to_map [("name", JStr "pool"); ("pda", JInt 5)]))
  = Raise TypeError.
Proof. vm_compute. reflexivity. Qed.

Lemma sample_account_well_formed : account_well_formed sample_account.
Proof.
  right. exists (JDict sample_pda). split; [reflexivity|].
  exists sample_pda. split; [reflexivity|]. right.
  exists [JDict sample_seed_const; JDict sample_seed_account].
  split; [reflexivity|].
  repeat constructor.
  - exists sample_seed_const. split; [reflexivity|]. intros Hk. discriminate Hk.
  - exists sample_seed_account. split; [reflexivity|]. intros _. right.
    by exists "pool.merchant".
Defined.

Lemma fix_account_dict_witness :
  ∃ fixed pda',
    fix_account (JDict sample_account) = Ok (JDict fixed)
    ∧ dom fixed ⊆ allowed_keys
    ∧ fixed !! "writable" = Some (JBool true)
    ∧ fixed !! "signer" = Some (JBool false)
    ∧ fixed !! "pda" = Some (JDict pda')
    ∧ pda' !! "program" = None.
Proof.
  destruct (fix_account_dict sample_account) as [Hret Hspec].
  destruct (Hret sample_account_well_formed) as [r Hr].
  destruct (Hspec r Hr) as (fixed & -> & Hdom & Hw & Hs & Hpda).
  destruct (Hpda sample_pda eq_refl) as (pda' & Hp & Hprog & _).
  exists fixed, pda'. split_and!; [exact Hr|exact Hdom|exact Hw|exact Hs|exact Hp|exact Hprog].
Defined.

(** * Further properties of the builders *)

Lemma utf8_encode_cp_length (c : Z) (b : bytes) :
  utf8_encode_cp c = Ok b → (1 ≤ length b ≤ 4)%nat.
Proof.
  unfold utf8_encode_cp. repeat case_bool_decide; intros [= <-]; simpl; lia.
Qed.

Lemma encode_utf8_length (s : pystr) (b : bytes) :
  encode_utf8 s = Ok b → (length s ≤ length b ≤ 4 * length s)%nat.
Proof.
  revert b. induction s as [|c s IH]; intros b; simpl.
  - intros [= <-]. simpl. lia.
  - intros Hb. apply bind_Ok_inv in Hb as (bc & Hc & Hb).
    apply bind_Ok_inv in Hb as (bs & Hs & [= <-]).
    apply utf8_encode_cp_length in Hc. apply IH in Hs.
    rewrite length_app. lia.
Qed.

Lemma utf8_encode_cp_cases (c : Z) :
  code_point c →
  (¬ surrogate c → is_Ok (utf8_encode_cp c))
  ∧ (surrogate c → utf8_encode_cp c = Raise UnicodeEncodeError).
Proof.
  unfold code_point, surrogate, utf8_encode_cp. intros Hc.
  repeat case_bool_decide; split; intros Hs; first [lia | done | by eexists].
Qed.

Lemma encode_utf8_cases (s : pystr) :
  Forall code_point s →
  (Forall (λ c, ¬ surrogate c) s → is_Ok (encode_utf8 s))
  ∧ (Exists surrogate s → encode_utf8 s = Raise UnicodeEncodeError).
Proof.
  induction 1 as [|c s Hc _ [IHok IHbad]]; simpl.
  - split; [by eexists|]. intros Hex. by apply Exists_nil in Hex.
  - destruct (utf8_encode_cp_cases c Hc) as [Hok Hbad]. split.
    + intros [Hn Hs]%Forall_cons. destruct (Hok Hn) as [bc ->]; simpl.
      destruct (IHok Hs) as [bs ->]; simpl. by eexists.
    + destruct (decide (surrogate c)) as [Hsur|Hn].
      * intros _. by rewrite (Hbad Hsur).
      * intros [?|Hs]%Exists_cons; [done|].
        destruct (Hok Hn) as [bc ->]; simpl. by rewrite (IHbad Hs).
Qed.

(** X1.  In an instruction returned by [process_sale_ix], [deposit_escrow_ix]
    or [withdraw_escrow_ix] the amount was within u64, the data is the
    operation's discriminator followed by exactly eight bytes, sixteen in
    all, and those eight bytes read little-endian give the amount back. *)
Theorem u64_amount_round_trip `{Solders} (self : RedioContract) (k : call)
    (amount : Z) (ix : Instruction) :
  call_amount k = Some amount →
  build self k = Ok ix →
  0 ≤ amount < 2 ^ 64
  ∧ data ix = discriminator (call_operation k) ++ le_bytes 8 amount
  ∧ length (data ix) = 16%nat
  ∧ le_uint (argument_payload ix) = amount.
Proof.
  intros Ha Hix.
  assert (0 ≤ amount < 2 ^ 64
          ∧ data ix = discriminator (call_operation k) ++ le_bytes 8 amount)
    as [Hfit Hd].
  { destruct k as [m mint rate dep|m w ref|a m w mint amt|m w|m mint amt|m mint amt];
      simpl in *; try discriminate; injection Ha as ->.
    - by apply process_sale_ix_Ok in Hix as (_ & _ & ? & ?).
    - by apply (deposit_escrow_ix_Ok self m (Keypair_pubkey m) (Keypair_pubkey m))
        in Hix as (_ & _ & ? & ?).
    - by apply (withdraw_escrow_ix_Ok self m (Keypair_pubkey m) (Keypair_pubkey m))
        in Hix as (_ & _ & ? & ?). }
  split; [done|]. split; [done|]. split.
  - by rewrite Hd, length_app, length_discriminator, length_le_bytes.
  - apply discriminator_of_app in Hd as [_ ->]. by apply le_uint_le_bytes_id.
Qed.

Lemma u64_amount_round_trip_witness :
  ∃ ix, @build sample_solders sample_self
          (ProcessSaleIx (sample_keypair 4) (sample_key 1) (sample_key 2)
             (sample_key 3) 50000000) = Ok ix
        ∧ Z_of_byte <$> argument_payload ix = [128; 240; 250; 2; 0; 0; 0; 0]
        ∧ le_uint (argument_payload ix) = 50000000.
Proof.
  destruct (@build sample_solders sample_self
              (ProcessSaleIx (sample_keypair 4) (sample_key 1) (sample_key 2)
                 (sample_key 3) 50000000)) as [ix|e] eqn:Hix;
    [|vm_compute in Hix; discriminate Hix].
  exists ix. split; [reflexivity|].
  destruct (@u64_amount_round_trip sample_solders sample_self
              (ProcessSaleIx (sample_keypair 4) (sample_key 1) (sample_key 2)
                 (sample_key 3) 50000000) 50000000 ix eq_refl Hix)
    as (_ & Hd & _ & Hread).
  split; [|exact Hread].
  apply discriminator_of_app in Hd as [_ ->]. reflexivity.
Defined.

(** X2.  Whatever the reference id, [add_affiliate_ix] returns when its
    addresses can be derived and the id has a UTF-8 encoding of fewer than
    2^32 bytes, and the data it returns is the [add_affiliate] discriminator,
    a four-byte little-endian count and the UTF-8 bytes of the id, in that
    order and with nothing else: the count is the number of bytes that
    follow, not the number of characters, which lies between one and four
    times fewer. *)
Theorem ref_id_length_prefix `{Solders} (self : RedioContract) (merchant : Keypair)
    (affiliate_wallet : Pubkey) (ref_id : pystr) :
  let k := AddAffiliateIx merchant affiliate_wallet ref_id in
  (derivable AddAffiliate (call_principals k) → arguments_fit k →
   is_Ok (build self k))
  ∧ (∀ ix, build self k = Ok ix →
       ∃ ref_id_bytes,
         encode_utf8 ref_id = Ok ref_id_bytes
         ∧ data ix = discriminator AddAffiliate
                       ++ le_bytes 4 (Z.of_nat (length ref_id_bytes))
                       ++ ref_id_bytes
         ∧ discriminator_of ix = discriminator AddAffiliate
         ∧ drop 4 (argument_payload ix) = ref_id_bytes
         ∧ le_uint (take 4 (argument_payload ix)) = Z.of_nat (length ref_id_bytes)
         ∧ length (data ix) = (12 + length ref_id_bytes)%nat
         ∧ (length ref_id ≤ length ref_id_bytes ≤ 4 * length ref_id)%nat).
Proof.
  intros k. split; [apply (build_returns self k)|].
  intros ix Hix. simpl in Hix.
  assert (Hix' := Hix).
  apply (add_affiliate_ix_Ok self merchant affiliate_wallet (Keypair_pubkey merchant)
           (Keypair_pubkey merchant)) in Hix' as (_ & _ & (b & Hb & Hlen) & Hdata).
  destruct (add_affiliate_ix_payload _ _ _ _ _ _ Hb Hix) as (_ & Hdisc & Hpay).
  exists b. split; [done|].
  split; [by rewrite (Hdata b Hb), <- (assoc_L (++))|].
  split; [done|]. split; [|split; [|split]].
  - rewrite Hpay. apply drop_app_length'. by rewrite length_le_bytes.
  - rewrite Hpay, take_app_length' by (by rewrite length_le_bytes).
    by apply le_uint_le_bytes_id.
  - rewrite <- (take_drop 8 (data ix)), length_app.
    fold (discriminator_of ix) (argument_payload ix).
    rewrite Hdisc, Hpay, length_discriminator, length_app, length_le_bytes. lia.
  - by apply encode_utf8_length.
Qed.

Lemma ref_id_length_prefix_witness :
  ∃ ix, @add_affiliate_ix sample_solders sample_self (sample_keypair 1)
          (sample_key 2) [233; 116; 233] = Ok ix
        ∧ Z_of_byte <$> data ix =
            [221; 239; 60; 159; 213; 45; 221; 87; 5; 0; 0; 0; 195; 169; 116; 195; 169]
        ∧ le_uint (take 4 (argument_payload ix)) = 5.
Proof.
  destruct (@ref_id_length_prefix sample_solders sample_self (sample_keypair 1)
              (sample_key 2) [233; 116; 233]) as [Hret Hdata].
  destruct Hret as [ix Hix].
  { by eexists. }
  { eexists. split; [vm_compute; reflexivity|simpl; lia]. }
  exists ix. split; [exact Hix|].
  destruct (Hdata ix Hix) as (b & Hb & Hd & _ & _ & Hread & _).
  vm_compute in Hb. injection Hb as <-. split; [|exact Hread].
  rewrite Hd. reflexivity.
Defined.

(** X3.  With derivable addresses and a reference id of fewer than 2^30
    characters, [add_affiliate_ix] returns exactly when no character is a
    lone surrogate, and raises [UnicodeEncodeError] as soon as one is. *)
Theorem ref_id_surrogates `{Solders} (self : RedioContract) (merchant : Keypair)
    (affiliate_wallet : Pubkey) (ref_id : pystr) :
  let k := AddAffiliateIx merchant affiliate_wallet ref_id in
  derivable AddAffiliate (call_principals k) →
  Forall code_point ref_id →
  Z.of_nat (length ref_id) < 2 ^ 30 →
  (Forall (λ c, ¬ surrogate c) ref_id → is_Ok (build self k))
  ∧ (Exists surrogate ref_id → build self k = Raise UnicodeEncodeError).
Proof.
  simpl. intros Hder Hcp Hlen.
  destruct (encode_utf8_cases ref_id Hcp) as [Hok Hbad]. split.
  - intros Hns. destruct (Hok Hns) as [b Hb].
    apply add_affiliate_ix_returns with
      (Keypair_pubkey merchant) (Keypair_pubkey merchant) b; [done..|].
    apply encode_utf8_length in Hb. lia.
  - intros Hsur. specialize (Hbad Hsur). revert Hder.
    unfold add_affiliate_ix, derivable, is_Ok. unfold_derivations. derive_cases.
    all: try (by intros [? ?]).
    intros _. by rewrite Hbad.
Qed.

Lemma ref_id_surrogates_witness :
  is_Ok (@add_affiliate_ix sample_solders sample_self (sample_keypair 1)
           (sample_key 2) [233; 116; 233])
  ∧ @add_affiliate_ix sample_solders sample_self (sample_keypair 1)
      (sample_key 2) [65; 55296] = Raise UnicodeEncodeError.
Proof.
  split.
  - apply (@ref_id_surrogates sample_solders sample_self (sample_keypair 1)
             (sample_key 2) [233; 116; 233]); [by eexists| |simpl; lia|].
    + repeat constructor; unfold code_point; lia.
    + repeat constructor; unfold surrogate; lia.
  - apply (@ref_id_surrogates sample_solders sample_self (sample_keypair 1)
             (sample_key 2) [65; 55296]); [by eexists| |simpl; lia|].
    + repeat constructor; unfold code_point; lia.
    + apply Exists_cons_tl, Exists_cons_hd. unfold surrogate. lia.
Defined.

Lemma utf8_encode_cp_not_panic (c : Z) : utf8_encode_cp c ≠ Raise PanicException.
Proof. unfold utf8_encode_cp. repeat case_bool_decide; discriminate. Qed.

Lemma encode_utf8_not_panic (s : pystr) : encode_utf8 s ≠ Raise PanicException.
Proof.
  induction s as [|c s IH]; simpl; [discriminate|].
  pose proof (utf8_encode_cp_not_panic c) as Hc.
  destruct (utf8_encode_cp c) as [bc|e]; simpl; [|congruence].
  destruct (encode_utf8 s) as [bs|e]; simpl; [discriminate|congruence].
Qed.

Lemma add_affiliate_ix_panic `{Solders} self merchant wallet authority mint ref_id :
  add_affiliate_ix self merchant wallet ref_id = Raise PanicException ↔
  ¬ derivable AddAffiliate (mkPrincipals (Keypair_pubkey merchant) wallet mint authority).
Proof.
  unfold add_affiliate_ix, derivable, is_Ok. unfold_derivations. derive_cases.
  all: try (split; [by intros _ [? ?]|done]).
  pose proof (encode_utf8_not_panic ref_id) as Henc.
  destruct (encode_utf8 ref_id) as [b|e]; simpl;
    [|split; [congruence|intros Hn; destruct Hn; eauto]].
  use_discriminator AddAffiliate.
  destruct (pack_cases "<I" 4 (Z.of_nat (length b)) eq_refl) as [[_ ->]|[_ ->]]; simpl;
    (split; [discriminate|intros Hn; destruct Hn; eauto]).
Qed.

Lemma remove_affiliate_ix_panic `{Solders} self merchant wallet authority mint :
  remove_affiliate_ix self merchant wallet = Raise PanicException ↔
  ¬ derivable RemoveAffiliate (mkPrincipals (Keypair_pubkey merchant) wallet mint authority).
Proof.
  unfold remove_affiliate_ix, derivable, is_Ok. unfold_derivations. derive_cases.
  all: try (split; [by intros _ [? ?]|done]).
  use_discriminator RemoveAffiliate.
  split; [discriminate|intros Hn; destruct Hn; eauto].
Qed.

(** From the two characterisations of a width-bounded builder. *)
Lemma panic_iff_not_derivable (derives fits : Prop) (r : result Instruction) :
  (∀ ix, r = Ok ix → derives) →
  (∀ e, r = Raise e →
        (e = PanicException ∧ ¬ derives) ∨ (e = StructError ∧ derives ∧ ¬ fits)) →
  r = Raise PanicException ↔ ¬ derives.
Proof.
  intros HOk HRaise. split.
  - intros Hr. destruct (HRaise _ Hr) as [[_ ?]|[? _]]; done.
  - intros Hn. destruct r as [ix|e].
    + destruct Hn. by apply (HOk ix).
    + destruct (HRaise e eq_refl) as [[-> _]|(_ & ? & _)]; done.
Qed.

(** X4.  A builder raises the library's panic exactly when one of the
    addresses of its account table cannot be derived, whatever its other
    arguments are: the derivations come first, so an argument that does not
    fit its field is never reported before a failed derivation. *)
Theorem derivation_failure_first `{Solders} (self : RedioContract) (k : call) :
  build self k = Raise PanicException ↔
  ¬ derivable (call_operation k) (call_principals k).
Proof.
  destruct k as [m mint rate dep|m w ref|a m w mint amt|m w|m mint amt|m mint amt];
    simpl.
  - apply panic_iff_not_derivable with (0 ≤ rate < 2 ^ 16 ∧ 0 ≤ dep < 2 ^ 64).
    + intros ix Hix.
      apply (initialize_pool_ix_Ok self m (Keypair_pubkey m) (Keypair_pubkey m))
        in Hix as (? & _). by eexists.
    + intros e He. exact (initialize_pool_ix_Raise self m _ _ _ _ _ e He).
  - apply add_affiliate_ix_panic.
  - apply panic_iff_not_derivable with (0 ≤ amt < 2 ^ 64).
    + intros ix Hix. apply process_sale_ix_Ok in Hix as (? & _). by eexists.
    + intros e He. exact (process_sale_ix_Raise self _ _ _ _ _ e He).
  - apply remove_affiliate_ix_panic.
  - apply panic_iff_not_derivable with (0 ≤ amt < 2 ^ 64).
    + intros ix Hix.
      apply (deposit_escrow_ix_Ok self m (Keypair_pubkey m) (Keypair_pubkey m))
        in Hix as (? & _). by eexists.
    + intros e He. exact (deposit_escrow_ix_Raise self m _ _ _ _ e He).
  - apply panic_iff_not_derivable with (0 ≤ amt < 2 ^ 64).
    + intros ix Hix.
      apply (withdraw_escrow_ix_Ok self m (Keypair_pubkey m) (Keypair_pubkey m))
        in Hix as (? & _). by eexists.
    + intros e He. exact (withdraw_escrow_ix_Raise self m _ _ _ _ e He).
Qed.

(** X5.  Every instruction a builder returns targets the program identifier
    and has exactly one signer account, the keypair that was passed in. *)
Theorem sole_signer `{Solders} (self : RedioContract) (k : call) (ix : Instruction) :
  build self k = Ok ix →
  program_id ix = PROGRAM_ID
  ∧ pubkey <$> filter (λ a, is_signer a = true) (accounts ix) = [call_signer k].
Proof.
  intros Hix.
  assert (program_id ix = PROGRAM_ID) as Hp.
  { destruct k as [m mint rate dep|m w ref|a m w mint amt|m w|m mint amt|m mint amt];
      simpl in Hix.
    - by apply (initialize_pool_ix_Ok self m (Keypair_pubkey m) (Keypair_pubkey m))
        in Hix as (_ & ? & _).
    - by apply (add_affiliate_ix_Ok self m w (Keypair_pubkey m) (Keypair_pubkey m))
        in Hix as (_ & ? & _).
    - by apply process_sale_ix_Ok in Hix as (_ & ? & _).
    - by apply (remove_affiliate_ix_Ok self m w (Keypair_pubkey m) (Keypair_pubkey m))
        in Hix as (_ & ? & _).
    - by apply (deposit_escrow_ix_Ok self m (Keypair_pubkey m) (Keypair_pubkey m))
        in Hix as (_ & ? & _).
    - by apply (withdraw_escrow_ix_Ok self m (Keypair_pubkey m) (Keypair_pubkey m))
        in Hix as (_ & ? & _). }
  split; [done|].
  apply build_Ok_accounts in Hix. revert Hix.
  destruct k as [m mint rate dep|m w ref|a m w mint amt|m w|m mint amt|m mint amt];
    unfold_derivations; derive_cases; try done; by intros [= <-].
Qed.

Lemma sole_signer_witness :
  ∃ ix, @build sample_solders sample_self
          (ProcessSaleIx (sample_keypair 4) (sample_key 1) (sample_key 2)
             (sample_key 3) 50000000) = Ok ix
        ∧ pubkey <$> filter (λ a, is_signer a = true) (accounts ix) = [sample_key 4].
Proof.
  destruct (@build sample_solders sample_self
              (ProcessSaleIx (sample_keypair 4) (sample_key 1) (sample_key 2)
                 (sample_key 3) 50000000)) as [ix|e] eqn:Hix;
    [|vm_compute in Hix; discriminate Hix].
  exists ix. split; [reflexivity|].
  by destruct (@sole_signer sample_solders sample_self _ ix Hix) as [_ ->].
Defined.

(** X6.  For the same merchant, mint and amount, [deposit_escrow_ix] and
    [withdraw_escrow_ix] return together or not at all, and the two
    instructions have the same program, the same accounts and the same
    argument bytes: only the discriminators tell them apart. *)
Theorem deposit_withdraw_mirror `{Solders} (self : RedioContract) (merchant : Keypair)
    (usdc_mint : Pubkey) (amount : Z) :
  (is_Ok (deposit_escrow_ix self merchant usdc_mint amount) ↔
   is_Ok (withdraw_escrow_ix self merchant usdc_mint amount))
  ∧ (∀ deposit withdraw,
       deposit_escrow_ix self merchant usdc_mint amount = Ok deposit →
       withdraw_escrow_ix self merchant usdc_mint amount = Ok withdraw →
       program_id deposit = program_id withdraw
       ∧ accounts deposit = accounts withdraw
       ∧ argument_payload deposit = argument_payload withdraw
       ∧ discriminator_of deposit ≠ discriminator_of withdraw).
Proof.
  set (m := Keypair_pubkey merchant).
  pose proof (deposit_escrow_ix_Ok self merchant m m usdc_mint amount) as Hd.
  pose proof (withdraw_escrow_ix_Ok self merchant m m usdc_mint amount) as Hw.
  split; [split|].
  - intros [ix Hix]. apply Hd in Hix as (Ha & _ & Hfit & _).
    exists (mkInstruction PROGRAM_ID (discriminator WithdrawEscrow ++ le_bytes 8 amount)
              (accounts ix)). by apply Hw.
  - intros [ix Hix]. apply Hw in Hix as (Ha & _ & Hfit & _).
    exists (mkInstruction PROGRAM_ID (discriminator DepositEscrow ++ le_bytes 8 amount)
              (accounts ix)). by apply Hd.
  - intros dep wd Hdep Hwd.
    apply Hd in Hdep as (Ha1 & Hp1 & _ & Hd1).
    apply Hw in Hwd as (Ha2 & Hp2 & _ & Hd2).
    apply discriminator_of_app in Hd1 as [-> ->], Hd2 as [-> ->].
    split_and!; [congruence| |done|discriminate].
    change (expected_accounts WithdrawEscrow) with (expected_accounts DepositEscrow) in Ha2.
    congruence.
Qed.

Lemma deposit_withdraw_mirror_witness :
  ∃ deposit withdraw,
    @deposit_escrow_ix sample_solders sample_self (sample_keypair 1) (sample_key 3)
       20000000 = Ok deposit
    ∧ @withdraw_escrow_ix sample_solders sample_self (sample_keypair 1) (sample_key 3)
        20000000 = Ok withdraw
    ∧ accounts deposit = accounts withdraw
    ∧ argument_payload deposit = argument_payload withdraw.
Proof.
  destruct (@deposit_withdraw_mirror sample_solders sample_self (sample_keypair 1)
              (sample_key 3) 20000000) as [_ Hsame].
  eexists _, _. split; [vm_compute; reflexivity|]. split; [vm_compute; reflexivity|].
  destruct (Hsame _ _ eq_refl eq_refl) as (_ & Ha & Hp & _). by split.
Defined.

(** X7.  The builders use the derived addresses only: two copies of the
    library that find the same addresses, with whatever bumps, make every
    builder produce the same result. *)
Theorem bump_ignored (run1 run2 : Solders) :
  (∀ seeds program,
     fst <$> @try_find_program_address run1 seeds program =
     fst <$> @try_find_program_address run2 seeds program) →
  ∀ self k, @build run1 self k = @build run2 self k.
Proof.
  intros Hfst self k.
  destruct k as [m mint rate dep|m w ref|a m w mint amt|m w|m mint amt|m mint amt];
    simpl;
    unfold initialize_pool_ix, add_affiliate_ix, process_sale_ix, remove_affiliate_ix,
      deposit_escrow_ix, withdraw_escrow_ix;
    unfold_derivations;
    repeat match goal with
    | |- context [@try_find_program_address run1 ?s ?p] =>
        let E := fresh "E" in
        pose proof (Hfst s p) as E;
        destruct (@try_find_program_address run1 s p) as [[? ?]|],
                 (@try_find_program_address run2 s p) as [[? ?]|];
        simpl in E; try discriminate E; try (injection E as ->); simpl
    end;
    reflexivity.
Qed.

Lemma bump_ignored_witness :
  let other : Solders := {|
    try_find_program_address seeds program :=
      Some (mkPubkey (take 32 (concat seeds ++ Pubkey_bytes program)), 254) |} in
  @find_pool_pda sample_solders (sample_key 1) ≠ @find_pool_pda other (sample_key 1)
  ∧ @build sample_solders sample_self
      (InitializePoolIx (sample_keypair 1) (sample_key 3) 500 1000000)
    = @build other sample_self
        (InitializePoolIx (sample_keypair 1) (sample_key 3) 500 1000000).
Proof.
  intros other. split; [discriminate|].
  apply (bump_ignored sample_solders other). reflexivity.
Defined.

Lemma derivation_failure_first_witness :
  let exhausted : Solders := {| try_find_program_address _ _ := None |} in
  @build exhausted sample_self
    (InitializePoolIx (sample_keypair 1) (sample_key 3) 70000 (-1))
  = Raise PanicException.
Proof.
  intros exhausted.
  apply (@derivation_failure_first exhausted sample_self
           (InitializePoolIx (sample_keypair 1) (sample_key 3) 70000 (-1))).
  intros [l Hl]. discriminate Hl.
Defined.

(** * Further properties of the IDL fix-up *)

Lemma split_no_sep (sep : ascii) (c : string) :
  (∀ ch, ch ∈ String.list_ascii_of_string c → ch ≠ sep) → split sep c = [c].
Proof.
  induction c as [|a c IH]; simpl; [done|]. intros Hno.
  rewrite decide_False by (apply Hno; left).
  rewrite IH; [done|]. intros ch Hch. apply Hno. by right.
Qed.

Lemma fix_seed_output (seed seed' : json) :
  fix_seed seed = Ok seed' →
  ∃ d', seed' = JDict d' ∧ d' !! "account" = None
    ∧ (d' !! "kind" = Some (JStr "account") →
       d' !! "path" = None
       ∨ ∃ c, d' !! "path" = Some (JStr c)
              ∧ ∀ ch, ch ∈ String.list_ascii_of_string c → ch ≠ "."%char).
Proof.
  destruct seed as [| | | | |l|d]; try done. simpl.
  intros Hs. apply bind_Ok_inv in Hs as (d1 & Hd1 & [= <-]).
  exists (delete "account" d1). split; [done|]. split; [apply lookup_delete_eq|].
  rewrite !lookup_delete_ne by done. intros Hk.
  destruct (d !! "kind") as [[| | | |k| |]|] eqn:Ek; simpl in Hd1;
    try (injection Hd1 as <-; congruence).
  case_bool_decide as Hacc; simpl in Hd1; [|injection Hd1 as <-; congruence].
  destruct (d !! "path") as [[| | | |p| |]|] eqn:Ep; simpl in Hd1; try done.
  - injection Hd1 as <-. right.
    destruct (split_first_component p) as (c & -> & Hno & _). simpl.
    exists c. by rewrite lookup_insert_eq.
  - injection Hd1 as <-. by left.
Qed.

Lemma fix_seed_fixpoint (d : gmap string json) :
  d !! "account" = None →
  (d !! "kind" = Some (JStr "account") →
   d !! "path" = None
   ∨ ∃ c, d !! "path" = Some (JStr c)
          ∧ ∀ ch, ch ∈ String.list_ascii_of_string c → ch ≠ "."%char) →
  fix_seed (JDict d) = Ok (JDict d).
Proof.
  intros Hacc Hpath. simpl.
  assert (Hdone : Ok (JDict (delete "account" d)) = Ok (JDict d))
    by (by rewrite delete_id).
  destruct (d !! "kind") as [[| | | |k| |]|] eqn:Ek; simpl; try done.
  case_bool_decide as Hk; simpl; [|done]. subst k.
  destruct (Hpath eq_refl) as [Hp|(c & Hp & Hno)]; rewrite Hp; simpl; [done|].
  rewrite split_no_sep by done. simpl.
  rewrite insert_id by done. done.
Qed.

Lemma fix_seed_idempotent (seed seed' : json) :
  fix_seed seed = Ok seed' → fix_seed seed' = Ok seed'.
Proof.
  intros (d' & -> & Hacc & Hpath)%fix_seed_output. by apply fix_seed_fixpoint.
Qed.

Lemma mapM_fixpoint {A} (f : A → result A) (l : list A) :
  Forall (λ x, f x = Ok x) l → mapM f l = Ok l.
Proof.
  induction 1 as [|x l Hx _ IH]; simpl; [done|]. rewrite Hx; simpl. by rewrite IH.
Qed.

Lemma mapM_idempotent {A} (f : A → result A) (l l' : list A) :
  (∀ x y, f x = Ok y → f y = Ok y) →
  mapM f l = Ok l' → mapM f l' = Ok l'.
Proof.
  intros Hf Hl%mapM_Ok_inv. apply mapM_fixpoint.
  induction Hl; constructor; eauto.
Qed.

Lemma fix_program_idempotent (pda : gmap string json) :
  fix_program (fix_program pda) = fix_program pda.
Proof.
  unfold fix_program at 2 3.
  destruct (pda !! "program") as [prog|] eqn:Hprog.
  - destruct (negb _) eqn:Hwf.
    + unfold fix_program. by rewrite lookup_delete_eq.
    + unfold fix_program. by rewrite Hprog, Hwf.
  - unfold fix_program. by rewrite Hprog.
Qed.

Lemma fix_seeds_fix_program (pda : gmap string json) :
  fix_seeds pda = Ok pda → fix_seeds (fix_program pda) = Ok (fix_program pda).
Proof.
  destruct (fix_program_spec pda) as [_ Hkeep].
  unfold fix_seeds. rewrite Hkeep by done.
  destruct (pda !! "seeds") as [[| | | |s|l|d]|] eqn:Hs; try done.
  - by case_decide.
  - intros Hl. apply bind_Ok_inv in Hl as (l' & Hl' & [= Heq]).
    assert (l' = l) as ->.
    { assert (<["seeds" := JList l']> pda !! "seeds" = pda !! "seeds") as Hlook
        by (by rewrite Heq).
      rewrite lookup_insert_eq, Hs in Hlook. congruence. }
    rewrite Hl'. simpl. rewrite insert_id; [done|]. by rewrite Hkeep.
  - by case_decide.
Qed.

Lemma fix_seeds_idempotent (pda pda' : gmap string json) :
  fix_seeds pda = Ok pda' → fix_seeds pda' = Ok pda'.
Proof.
  unfold fix_seeds at 1.
  destruct (pda !! "seeds") as [[| | | |s|l|d]|] eqn:Hs; try done.
  - case_decide; [|done]. intros [= <-]. unfold fix_seeds. rewrite Hs.
    by rewrite decide_True.
  - intros Hl. apply bind_Ok_inv in Hl as (l' & Hl' & [= <-]).
    unfold fix_seeds. rewrite lookup_insert_eq.
    rewrite (mapM_idempotent fix_seed l l' fix_seed_idempotent Hl'). simpl.
    by rewrite insert_insert_eq.
  - case_decide; [|done]. intros [= <-]. unfold fix_seeds. rewrite Hs.
    by rewrite decide_True.
  - intros [= <-]. unfold fix_seeds. by rewrite Hs.
Qed.

Lemma fix_pda_idempotent (pda pda' : json) :
  fix_pda pda = Ok pda' → fix_pda pda' = Ok pda'.
Proof.
  destruct pda as [| | | |s|l|d]; try done; simpl.
  - destruct (str_contains "seeds" s) eqn:H1; [done|].
    destruct (str_contains "program" s) eqn:H2; [done|].
    intros [= <-]. simpl. by rewrite H1, H2.
  - destruct (list_contains "seeds" l) eqn:H1; [done|].
    destruct (list_contains "program" l) eqn:H2; [done|].
    intros [= <-]. simpl. by rewrite H1, H2.
  - intros Hd. apply bind_Ok_inv in Hd as (d1 & Hd1 & [= <-]). simpl.
    apply fix_seeds_idempotent in Hd1.
    rewrite (fix_seeds_fix_program d1 Hd1). simpl.
    by rewrite fix_program_idempotent.
Qed.

Lemma setdefault_present (k : string) (v : json) (d : gmap string json) :
  is_Some (d !! k) → setdefault k v d = d.
Proof. intros [x Hx]. unfold setdefault. by rewrite Hx. Qed.

(** The shape of what [fix_account] returns on a dict. *)
Lemma fix_account_dict_inv (account : gmap string json) (r : json) :
  fix_account (JDict account) = Ok r →
  ∃ fixed, r = JDict fixed
    ∧ (∀ k, is_Some (fixed !! k) → k ∈ allowed_keys)
    ∧ (∀ k, k ≠ "pda" →
         fixed !! k =
         if decide (k = "signer") then Some (default (JBool false) (account !! "signer"))
         else if decide (k = "writable")
              then Some (default (JBool false) (account !! "writable"))
         else if decide (k ∈ allowed_keys) then account !! k else None)
    ∧ match account !! "pda" with
      | None => fixed !! "pda" = None
      | Some pda => ∃ pda', fix_pda pda = Ok pda' ∧ fixed !! "pda" = Some pda'
      end.
Proof.
  unfold fix_account.
  set (base := setdefault "signer" _ _).
  assert (Hbase : ∀ k, base !! k = _) by (intros k; apply defaults_lookup).
  assert (Hpda : base !! "pda" = account !! "pda").
  { rewrite Hbase. repeat case_decide; try done.
    all: exfalso; match goal with Hn : _ ∉ _ |- _ => apply Hn end;
      apply allowed_keys_elem; auto. }
  assert (Hdom : ∀ k, is_Some (base !! k) → k ∈ allowed_keys).
  { intros k. rewrite Hbase. rewrite allowed_keys_elem.
    repeat case_decide; subst; auto.
    - intros _. by apply allowed_keys_elem.
    - by intros [? ?]. }
  rewrite Hpda. destruct (account !! "pda") as [pda|] eqn:Hacc.
  - intros Hr. apply bind_Ok_inv in Hr as (pda' & Hfix & [= <-]).
    exists (<["pda" := pda']> base). split_and!; [done| | |].
    + intros k. rewrite lookup_insert. case_decide; [|apply Hdom].
      subst. intros _. apply allowed_keys_elem. auto.
    + intros k Hk. rewrite lookup_insert_ne by done. apply Hbase.
    + exists pda'. by rewrite lookup_insert_eq.
  - intros [= <-]. exists base. split_and!; [done|done| |congruence].
    intros k _. apply Hbase.
Qed.

Lemma fix_account_fixpoint (fixed : gmap string json) :
  (∀ k, is_Some (fixed !! k) → k ∈ allowed_keys) →
  is_Some (fixed !! "writable") → is_Some (fixed !! "signer") →
  match fixed !! "pda" with
  | None => True
  | Some pda => fix_pda pda = Ok pda
  end →
  fix_account (JDict fixed) = Ok (JDict fixed).
Proof.
  intros Hdom Hw Hs Hpda. unfold fix_account.
  rewrite map_filter_id by (intros i x Hi; apply Hdom; eauto).
  rewrite (setdefault_present "writable") by done.
  rewrite (setdefault_present "signer") by done.
  destruct (fixed !! "pda") as [pda|] eqn:Hp; [|done].
  rewrite Hpda. simpl. by rewrite insert_id.
Qed.

(** X8.  The fix-up is idempotent: an account that [fix_account] returned is
    returned unchanged when it is fixed again. *)
Theorem fix_account_idempotent (account fixed : json) :
  fix_account account = Ok fixed → fix_account fixed = Ok fixed.
Proof.
  destruct account as [| | | |s|l|a]; try done.
  - by intros [= <-].
  - intros (d & -> & Hdom & Hkeys & Hpda)%fix_account_dict_inv.
    apply fix_account_fixpoint; [done| | |].
    + rewrite Hkeys by done. by rewrite decide_False, decide_True by done.
    + rewrite Hkeys by done. by rewrite decide_True by done.
    + destruct (a !! "pda") as [pda|].
      * destruct Hpda as (pda' & Hfix & ->). by apply fix_pda_idempotent in Hfix.
      * by rewrite Hpda.
Qed.

Lemma fix_account_idempotent_witness :
  ∃ fixed, fix_account (JDict sample_account) = Ok fixed
           ∧ fixed ≠ JDict sample_account
           ∧ fix_account fixed = Ok fixed.
Proof.
  destruct (fix_account (JDict sample_account)) as [fixed|e] eqn:Hfix;
    [|vm_compute in Hfix; discriminate Hfix].
  exists fixed. split; [reflexivity|]. split.
  - intros ->. vm_compute in Hfix. discriminate Hfix.
  - exact (fix_account_idempotent _ _ Hfix).
Defined.

Lemma fix_seed_other (seed seed' : json) :
  fix_seed seed = Ok seed' → seed_only_loses_account seed seed'.
Proof.
  intros Hs d -> Hcond. simpl in Hs.
  apply bind_Ok_inv in Hs as (d1 & Hd1 & [= <-]).
  assert (d1 = d) as ->; [|done].
  destruct Hcond as [Hk|Hp].
  - destruct (d !! "kind") as [[| | | |k| |]|]; simpl in Hd1; try by injection Hd1.
    case_bool_decide; [by subst|]. simpl in Hd1. by injection Hd1.
  - rewrite Hp in Hd1. rewrite andb_false_r in Hd1. by injection Hd1.
Qed.

Lemma fix_seeds_other (pda pda' : gmap string json) :
  fix_seeds pda = Ok pda' →
  (∀ seeds, pda !! "seeds" = Some (JList seeds) →
     ∃ seeds', pda' !! "seeds" = Some (JList seeds')
               ∧ Forall2 seed_only_loses_account seeds seeds')
  ∧ (∀ v, pda !! "seeds" = Some v → (∀ l, v ≠ JList l) → pda' = pda).
Proof.
  unfold fix_seeds. destruct (pda !! "seeds") as [[| | | |s|l|d]|] eqn:Hs; try done.
  - case_decide; [|done]. intros [= <-]. split; [done|]. by intros.
  - intros Hl. apply bind_Ok_inv in Hl as (l' & Hl' & [= <-]). split.
    + intros seeds [= <-]. exists l'. rewrite lookup_insert_eq. split; [done|].
      apply mapM_Ok_inv in Hl'. eapply Forall2_impl; [exact Hl'|].
      intros x y Hxy. by apply fix_seed_other.
    + intros v [= <-] Hv. by destruct (Hv l).
  - case_decide; [|done]. intros [= <-]. split; [done|]. by intros.
Qed.

(** X9.  [fix_account] touches nothing else.  The name and the address are
    kept as they are; a pda that is a string or a list is handed back as is;
    in a pda dict every key but "seeds" and "program" keeps its value, a
    "seeds" value that is not a list is kept, and a seed whose kind is not
    "account", or that has no path, only loses its "account" entry, so a
    dotted path there keeps its dots. *)
Theorem fix_account_preserves (account fixed : gmap string json) :
  fix_account (JDict account) = Ok (JDict fixed) →
  fixed !! "name" = account !! "name"
  ∧ fixed !! "address" = account !! "address"
  ∧ (∀ pda, account !! "pda" = Some pda → (∀ d, pda ≠ JDict d) →
            fixed !! "pda" = Some pda)
  ∧ (∀ pda, account !! "pda" = Some (JDict pda) →
       ∃ pda', fixed !! "pda" = Some (JDict pda')
         ∧ (∀ k, k ≠ "seeds" → k ≠ "program" → pda' !! k = pda !! k)
         ∧ (∀ v, pda !! "seeds" = Some v → (∀ l, v ≠ JList l) →
                 pda' !! "seeds" = Some v)
         ∧ (∀ seeds, pda !! "seeds" = Some (JList seeds) →
              ∃ seeds', pda' !! "seeds" = Some (JList seeds')
                        ∧ Forall2 seed_only_loses_account seeds seeds')).
Proof.
  intros (d & [= <-] & Hdom & Hkeys & Hpda)%fix_account_dict_inv.
  assert (Hname : "name" ∈ allowed_keys) by (apply allowed_keys_elem; auto).
  assert (Haddr : "address" ∈ allowed_keys) by (apply allowed_keys_elem; auto).
  split_and!.
  - rewrite Hkeys by done. by rewrite !decide_False, decide_True by done.
  - rewrite Hkeys by done. by rewrite !decide_False, decide_True by done.
  - intros pda Ha Hnd. rewrite Ha in Hpda. destruct Hpda as (pda' & Hfix & ->).
    f_equal. destruct pda as [| | | |s|l|pd]; try done; simpl in Hfix.
    + destruct (str_contains "seeds" s); [done|].
      destruct (str_contains "program" s); [done|]. by injection Hfix.
    + destruct (list_contains "seeds" l); [done|].
      destruct (list_contains "program" l); [done|]. by injection Hfix.
    + by destruct (Hnd pd).
  - intros pda Ha. rewrite Ha in Hpda. destruct Hpda as (pda' & Hfix & ->).
    simpl in Hfix. apply bind_Ok_inv in Hfix as (d1 & Hd1 & [= <-]).
    destruct (fix_program_spec d1) as [_ Hkeep].
    destruct (fix_seeds_spec _ _ Hd1) as [Hother _].
    destruct (fix_seeds_other _ _ Hd1) as [Hlist Hnot].
    exists (fix_program d1). split_and!; [done| | |].
    + intros k Hk1 Hk2. by rewrite Hkeep, Hother.
    + intros v Hv Hnl. rewrite Hkeep by done. by rewrite (Hnot v Hv Hnl).
    + intros seeds Hs. destruct (Hlist seeds Hs) as (seeds' & Hs' & Hall).
      exists seeds'. by rewrite Hkeep.
Qed.

Lemma fix_account_preserves_witness :
  ∃ fixed pda',
    fix_account (JDict sample_account) = Ok (JDict fixed)
    ∧ fixed !! "name" = Some (JStr "affiliate")
    ∧ fixed !! "pda" = Some (JDict pda')
    ∧ ∃ seeds', pda' !! "seeds" = Some (JList seeds')
                ∧ seeds' !! 0%nat = Some (JDict sample_seed_const).
Proof.
  destruct (fix_account (JDict sample_account)) as [[| | | | | |fixed]|e] eqn:Hfix;
    try (vm_compute in Hfix; discriminate Hfix).
  destruct (fix_account_preserves _ _ Hfix) as (Hname & _ & _ & Hpda).
  destruct (Hpda sample_pda eq_refl) as (pda' & Hp & _ & _ & Hseeds).
  destruct (Hseeds _ eq_refl) as (seeds' & Hs & Hall).
  exists fixed, pda'. split; [reflexivity|]. split; [exact Hname|]. split; [exact Hp|].
  exists seeds'. split; [exact Hs|].
  apply Forall2_cons_inv_l in Hall as (s0 & rest & Hs0 & _ & ->).
  simpl. f_equal. apply (Hs0 sample_seed_const eq_refl). left. discriminate.
Defined.

Lemma fix_seed_cases (seed : json) :
  (seed_well_formed seed ∧ is_Ok (fix_seed seed))
  ∨ (¬ seed_well_formed seed ∧ fix_seed seed = Raise AttributeError).
Proof.
  destruct seed as [| | | | |l|d];
    try (right; split; [by intros (? & ? & _)|done]).
  destruct (d !! "kind") as [[| | | |k| |]|] eqn:Ek;
    try (left; split; [exists d; split; [done|congruence]
                      |apply fix_seed_returns; exists d; split; [done|congruence]]).
  destruct (decide (k = "account")) as [->|Hk];
    [|left; split; [exists d; split; [done|congruence]
                   |apply fix_seed_returns; exists d; split; [done|congruence]]].
  destruct (d !! "path") as [[| | | |p| |]|] eqn:Ep;
    try (right; split;
         [intros (d' & [= <-] & Hp); destruct (Hp Ek) as [?|[? ?]]; congruence
         |simpl; by rewrite Ek, Ep]).
  - left. split; [exists d; split; [done|eauto]|].
    apply fix_seed_returns. exists d. split; [done|eauto].
  - left. split; [exists d; split; [done|eauto]|].
    apply fix_seed_returns. exists d. split; [done|eauto].
Qed.

Lemma mapM_fix_seed_cases (seeds : list json) :
  (Forall seed_well_formed seeds ∧ is_Ok (mapM fix_seed seeds))
  ∨ (¬ Forall seed_well_formed seeds ∧ mapM fix_seed seeds = Raise AttributeError).
Proof.
  induction seeds as [|s seeds IH]; simpl.
  - left. split; [constructor|by eexists].
  - destruct (fix_seed_cases s) as [[Hwf [s' Hs']]|[Hn Hs]].
    + rewrite Hs'; simpl. destruct IH as [[Hall [l' Hl']]|[Hn Hl]].
      * left. split; [by constructor|]. rewrite Hl'. by eexists.
      * right. split; [by intros [_ ?]%Forall_cons|]. by rewrite Hl.
    + right. split; [by intros [? _]%Forall_cons|]. by rewrite Hs.
Qed.

(** X10.  How [fix_account] fails.  A pda that is null, a boolean or a number
    raises [TypeError].  With a pda dict whose seeds are a list, the call
    returns exactly when every seed is a dict and every seed of kind
    "account" has no path or a string path; otherwise it raises
    [AttributeError], and nothing is returned for the other accounts. *)
Theorem fix_account_raises (account : gmap string json) :
  (∀ pda, account !! "pda" = Some pda →
          (pda = JNull ∨ (∃ b, pda = JBool b) ∨ (∃ z, pda = JInt z)
           ∨ ∃ f, pda = JFloat f) →
          fix_account (JDict account) = Raise TypeError)
  ∧ (∀ pda seeds,
       account !! "pda" = Some (JDict pda) → pda !! "seeds" = Some (JList seeds) →
       (Forall seed_well_formed seeds ∧ is_Ok (fix_account (JDict account)))
       ∨ (¬ Forall seed_well_formed seeds
          ∧ fix_account (JDict account) = Raise AttributeError)).
Proof.
  assert (Hpda : ∀ pda, account !! "pda" = Some pda →
            fix_account (JDict account) =
            pda' ← fix_pda pda;
            Ok (JDict (<["pda" := pda']>
              (setdefault "signer" (JBool false)
                 (setdefault "writable" (JBool false)
                    (filter (λ kv, kv.1 ∈ allowed_keys) account)))))).
  { intros pda Ha. unfold fix_account.
    cbv zeta. rewrite defaults_lookup. rewrite !decide_False by done.
    rewrite decide_True by (apply allowed_keys_elem; auto). by rewrite Ha. }
  split.
  - intros pda Ha Hshape. rewrite (Hpda pda Ha).
    destruct Hshape as [->|[[b ->]|[[z ->]|[f ->]]]]; done.
  - intros pda seeds Ha Hs. rewrite (Hpda _ Ha). simpl. unfold fix_seeds. rewrite Hs.
    destruct (mapM_fix_seed_cases seeds) as [[Hall [l' Hl']]|[Hn Hl]].
    + left. split; [done|]. rewrite Hl'. by eexists.
    + right. split; [done|]. by rewrite Hl.
Qed.

Lemma fix_account_raises_witness :
  fix_account (JDict (list_to_map [("name", JStr "pool"); ("pda", JNull)]))
    = Raise TypeError
  ∧ fix_account (JDict (list_to_map
      [("name", JStr "pool");
       ("pda", JDict (list_to_map
          [("seeds", JList [JDict (list_to_map
              [("kind", JStr "account"); ("path", JInt 7)])])]))]))
    = Raise AttributeError.
Proof.
  split.
  - apply (fix_account_raises _) with JNull; [reflexivity|by left].
  - destruct (fix_account_raises (list_to_map
      [("name", JStr "pool");
       ("pda", JDict (list_to_map
          [("seeds", JList [JDict (list_to_map
              [("kind", JStr "account"); ("path", JInt 7)])])]))])) as [_ Hseeds].
    destruct (Hseeds _ _ eq_refl eq_refl) as [[_ [r Hr]]|[_ Hr]]; [|exact Hr].
    vm_compute in Hr. discriminate Hr.
Defined.

(** * Properties of [fix_idl] *)

Lemma fix_account_returns (acc : json) :
  idl_account_well_formed acc → is_Ok (fix_account acc).
Proof.
  intros [[s ->]|(d & -> & Hwf)]; [by eexists|].
  unfold fix_account. cbv zeta. rewrite defaults_lookup.
  rewrite !decide_False by done.
  rewrite decide_True by (apply allowed_keys_elem; auto).
  destruct Hwf as [->|(pda & -> & pd & -> & Hseeds)]; [by eexists|].
  simpl. destruct (fix_seeds_returns pd) as [pd' ->]; [by exists pd|]. by eexists.
Qed.

Lemma fix_instruction_fixed (instr instr' : json) :
  fix_instruction instr = Ok instr' → instruction_fixed instr instr'.
Proof.
  intros Hi d ->. simpl in Hi.
  destruct (d !! "accounts") as [v|] eqn:Hacc.
  - apply bind_Ok_inv in Hi as (accs' & Hv & [= <-]).
    exists (<["accounts" := accs']> d). split_and!; [done| |done|].
    + intros k Hk. by rewrite lookup_insert_ne.
    + intros accs [= ->]. simpl in Hv.
      apply bind_Ok_inv in Hv as (l' & Hl' & [= <-]).
      exists l'. rewrite lookup_insert_eq. split; [done|]. by apply mapM_Ok_inv.
  - injection Hi as <-. exists d. by split_and!.
Qed.

Lemma fix_instruction_returns (instr : json) :
  idl_instruction_well_formed instr → is_Ok (fix_instruction instr).
Proof.
  intros (d & -> & [Hnone|(accs & Hacc & Hwf)]); simpl.
  - rewrite Hnone. by eexists.
  - rewrite Hacc. simpl.
    destruct (mapM_Ok_intro fix_account accs) as [l' ->]; [|by eexists].
    eapply Forall_impl; [exact Hwf|]. apply fix_account_returns.
Qed.

(** X11.  [fix_idl] returns on every well-formed IDL, and what it returns
    differs from its argument only in the account lists of the instructions:
    every other key of the document and of each instruction keeps its value,
    no "accounts" key is added, and the instructions and their accounts keep
    their number and order, each account being what [fix_account] returns
    for it. *)
Theorem fix_idl_structure (idl : gmap string json) :
  (idl_well_formed idl → is_Ok (fix_idl (JDict idl))) ∧
  (∀ r, fix_idl (JDict idl) = Ok r →
     ∃ idl', r = JDict idl'
       ∧ (∀ k, k ≠ "instructions" → idl' !! k = idl !! k)
       ∧ (idl !! "instructions" = None → idl' = idl)
       ∧ (∀ instrs, idl !! "instructions" = Some (JList instrs) →
            ∃ instrs', idl' !! "instructions" = Some (JList instrs')
                       ∧ Forall2 instruction_fixed instrs instrs')).
Proof.
  split.
  - intros [Hnone|(instrs & Hi & Hwf)]; simpl.
    + rewrite Hnone. by eexists.
    + rewrite Hi.
      destruct (mapM_Ok_intro fix_instruction instrs) as [l' ->]; [|by eexists].
      eapply Forall_impl; [exact Hwf|]. apply fix_instruction_returns.
  - intros r. simpl.
    destruct (idl !! "instructions") as [[| | | |s|l|d]|] eqn:Hi; try done.
    + intros [= <-]. exists idl. by split_and!.
    + intros Hl. apply bind_Ok_inv in Hl as (l' & Hl' & [= <-]).
      exists (<["instructions" := JList l']> idl). split_and!; [done| |done|].
      * intros k Hk. by rewrite lookup_insert_ne.
      * intros instrs [= <-]. exists l'. rewrite lookup_insert_eq. split; [done|].
        apply mapM_Ok_inv in Hl'. eapply Forall2_impl; [exact Hl'|].
        intros x y Hxy. by apply fix_instruction_fixed.
    + destruct (existsb _ _); [done|]. intros [= <-]. exists idl. by split_and!.
    + intros [= <-]. exists idl. by split_and!.
Qed.

Lemma sample_idl_well_formed : idl_well_formed sample_idl.
Proof.
  right. eexists. split; [reflexivity|]. apply Forall_singleton.
  eexists. split; [reflexivity|]. right. eexists. split; [reflexivity|].
  apply Forall_cons. split; [left; by eexists|]. apply Forall_singleton.
  right. exists sample_account. split; [done|]. apply sample_account_well_formed.
Defined.

Lemma fix_idl_structure_witness :
  ∃ idl' instrs',
    fix_idl (JDict sample_idl) = Ok (JDict idl')
    ∧ idl' !! "address" = Some (JStr "CFQoHeX28aKhpgsLCSGM2zpou6RkRrwRoHVToWS2B6tQ")
    ∧ idl' !! "instructions" = Some (JList instrs')
    ∧ length instrs' = 1%nat.
Proof.
  destruct (fix_idl_structure sample_idl) as [Hret Hspec].
  destruct (Hret sample_idl_well_formed) as [r Hr].
  destruct (Hspec r Hr) as (idl' & -> & Hkeep & _ & Hinstrs).
  destruct (Hinstrs _ eq_refl) as (instrs' & Hi & Hall).
  exists idl', instrs'. split; [exact Hr|]. split; [by rewrite Hkeep|].
  split; [exact Hi|]. symmetry. exact (Forall2_length _ _ _ Hall).
Defined.

Lemma fix_accounts_idempotent (v v' : json) :
  fix_accounts v = Ok v' → fix_accounts v' = Ok v'.
Proof.
  assert (Hstr : ∀ l : list string, mapM fix_account (JStr <$> l) = Ok (JStr <$> l)).
  { intros l. apply mapM_fixpoint. apply Forall_fmap, Forall_true. done. }
  destruct v as [| | | |s|l|d]; try done; simpl.
  - intros [= <-]. simpl. by rewrite Hstr.
  - intros Hl. apply bind_Ok_inv in Hl as (l' & Hl' & [= <-]). simpl.
    by rewrite (mapM_idempotent fix_account l l' fix_account_idempotent Hl').
  - intros [= <-]. simpl. by rewrite Hstr.
Qed.

Lemma fix_instruction_idempotent (instr instr' : json) :
  fix_instruction instr = Ok instr' → fix_instruction instr' = Ok instr'.
Proof.
  destruct instr as [| | | |s|l|d]; try done; simpl.
  - destruct (str_contains "accounts" s) eqn:Hs; [done|].
    intros [= <-]. simpl. by rewrite Hs.
  - destruct (list_contains "accounts" l) eqn:Hl; [done|].
    intros [= <-]. simpl. by rewrite Hl.
  - destruct (d !! "accounts") as [v|] eqn:Hacc.
    + intros Hv. apply bind_Ok_inv in Hv as (accs & Hv & [= <-]). simpl.
      rewrite lookup_insert_eq. rewrite (fix_accounts_idempotent _ _ Hv). simpl.
      by rewrite insert_insert_eq.
    + intros [= <-]. simpl. by rewrite Hacc.
Qed.

(** X12.  [fix_idl] is idempotent on every JSON document: fixing a fixed IDL
    again returns it unchanged. *)
Theorem fix_idl_idempotent (idl fixed : json) :
  fix_idl idl = Ok fixed → fix_idl fixed = Ok fixed.
Proof.
  destruct idl as [| | | |s|l|d]; try done; simpl.
  - destruct (str_contains "instructions" s) eqn:Hs; [done|].
    intros [= <-]. simpl. by rewrite Hs.
  - destruct (list_contains "instructions" l) eqn:Hl; [done|].
    intros [= <-]. simpl. by rewrite Hl.
  - destruct (d !! "instructions") as [[| | | |s|l|keys]|] eqn:Hi; try done.
    + intros [= <-]. simpl. by rewrite Hi.
    + intros Hl. apply bind_Ok_inv in Hl as (l' & Hl' & [= <-]). simpl.
      rewrite lookup_insert_eq.
      rewrite (mapM_idempotent fix_instruction l l' fix_instruction_idempotent Hl').
      simpl. by rewrite insert_insert_eq.
    + destruct (existsb _ _) eqn:Hk; [done|].
      intros [= <-]. simpl. by rewrite Hi, Hk.
    + intros [= <-]. simpl. by rewrite Hi.
Qed.

Lemma fix_idl_idempotent_witness :
  ∃ fixed, fix_idl (JDict sample_idl) = Ok fixed
           ∧ fixed ≠ JDict sample_idl
           ∧ fix_idl fixed = Ok fixed.
Proof.
  destruct (fix_idl (JDict sample_idl)) as [fixed|e] eqn:Hfix;
    [|vm_compute in Hfix; discriminate Hfix].
  exists fixed. split; [reflexivity|]. split.
  - intros ->. vm_compute in Hfix. discriminate Hfix.
  - exact (fix_idl_idempotent _ _ Hfix).
Defined.

Example str_chars_utf8 :
  str_chars "aé€" = ["a"; "é"; "€"]%string
  ∧ fix_accounts (JStr "ab") = Ok (JList [JStr "a"; JStr "b"]).
Proof. split; vm_compute; reflexivity. Qed.

(** * The account models against the builders *)

(** X13.  The bound of [MerchantPool] on the commission rate is narrower
    than the field: every rate a [MerchantPool] accepts is one
    [initialize_pool_ix] encodes, while the rates from 10001 to 65535 are
    refused by the model and still encoded by the builder. *)
Theorem merchant_pool_rate_encodable `{Solders} (self : RedioContract)
    (merchant : Keypair) (usdc_mint : Pubkey) (initial_deposit : Z)
    (p : MerchantPool.t) :
  0 ≤ initial_deposit < 2 ^ 64 →
  derivable InitializePool
    (call_principals (InitializePoolIx merchant usdc_mint 0 initial_deposit)) →
  let rate := MerchantPool.commission_rate p in
  (MerchantPool.validate p = Ok p →
   is_Ok (initialize_pool_ix self merchant usdc_mint rate initial_deposit))
  ∧ (10000 < rate ≤ 65535 →
     MerchantPool.validate p = Raise ValueError
     ∧ is_Ok (initialize_pool_ix self merchant usdc_mint rate initial_deposit)).
Proof.
  intros Hd Hder rate.
  assert (Hret : 0 ≤ rate ≤ 65535 →
            is_Ok (initialize_pool_ix self merchant usdc_mint rate initial_deposit)).
  { intros Hr. apply initialize_pool_ix_returns with
      (Keypair_pubkey merchant) (Keypair_pubkey merchant); [done|lia|done]. }
  unfold MerchantPool.validate. fold rate. split.
  - case_bool_decide as Hr; [|done]. intros _. apply Hret. lia.
  - intros Hr. split; [|apply Hret; lia].
    by rewrite (bool_decide_eq_false_2 (0 ≤ rate ≤ 10000)) by lia.
Qed.

Lemma merchant_pool_rate_encodable_witness :
  let p := MerchantPool.mk "merchant" "mint" 10001 0 0 255 254 in
  MerchantPool.validate p = Raise ValueError
  ∧ is_Ok (@initialize_pool_ix sample_solders sample_self (sample_keypair 1)
             (sample_key 3) 10001 0).
Proof.
  intros p.
  apply (@merchant_pool_rate_encodable sample_solders sample_self (sample_keypair 1)
           (sample_key 3) 0 p); [lia|by eexists|simpl; lia].
Defined.

(** X14.  A reference id an [AffiliateAccount] accepts has at most 32
    characters; when none of them is a lone surrogate, [add_affiliate_ix]
    encodes it (given derivable addresses) in at most 128 bytes, so the data
    is at most 140 bytes long. *)
Theorem affiliate_ref_id_encodable `{Solders} (self : RedioContract)
    (merchant : Keypair) (affiliate_wallet : Pubkey) (a : AffiliateAccount.t) :
  let ref_id := AffiliateAccount.ref_id a in
  AffiliateAccount.validate a = Ok a →
  Forall code_point ref_id → Forall (λ c, ¬ surrogate c) ref_id →
  derivable AddAffiliate
    (call_principals (AddAffiliateIx merchant affiliate_wallet ref_id)) →
  ∃ ix, add_affiliate_ix self merchant affiliate_wallet ref_id = Ok ix
        ∧ (length (data ix) ≤ 140)%nat.
Proof.
  intros ref_id Hval Hcp Hns Hder.
  assert (Hlen : (length ref_id ≤ 32)%nat).
  { unfold AffiliateAccount.validate in Hval. fold ref_id in Hval.
    destruct (bool_decide (length ref_id ≤ 32)%nat) eqn:Hb; [|done].
    by apply bool_decide_eq_true in Hb. }
  destruct (encode_utf8_cases ref_id Hcp) as [Hok _].
  destruct (Hok Hns) as [b Hb].
  pose proof (encode_utf8_length _ _ Hb) as Hb4.
  destruct (add_affiliate_ix_returns self merchant affiliate_wallet
              (Keypair_pubkey merchant) (Keypair_pubkey merchant) ref_id b Hder Hb)
    as [ix Hix]; [lia|].
  exists ix. split; [done|].
  destruct (add_affiliate_ix_payload _ _ _ _ _ _ Hb Hix) as (_ & Hdisc & Hpay).
  rewrite <- (take_drop 8 (data ix)), length_app.
  fold (discriminator_of ix) (argument_payload ix).
  rewrite Hdisc, Hpay, length_discriminator, length_app, length_le_bytes. lia.
Qed.

Lemma affiliate_ref_id_encodable_witness :
  let a := AffiliateAccount.mk "pool" "wallet" [65; 70; 70; 48; 48; 49] 0 0 true 255 0 in
  ∃ ix, @add_affiliate_ix sample_solders sample_self (sample_keypair 1)
          (sample_key 2) [65; 70; 70; 48; 48; 49] = Ok ix
        ∧ (length (data ix) ≤ 140)%nat.
Proof.
  intros a.
  apply (@affiliate_ref_id_encodable sample_solders sample_self (sample_keypair 1)
           (sample_key 2) a); [reflexivity| | |by eexists].
  - repeat constructor; unfold code_point; lia.
  - repeat constructor; unfold surrogate; lia.
Defined.

(** X15.  [remove_affiliate_ix] has no argument that could fail to encode:
    it returns exactly when its two addresses can be derived, and its data is
    then the eight bytes of the discriminator with nothing after them. *)
Theorem remove_affiliate_only_derives `{Solders} (self : RedioContract)
    (merchant : Keypair) (affiliate_wallet : Pubkey) :
  let k := RemoveAffiliateIx merchant affiliate_wallet in
  (is_Ok (build self k) ↔ derivable RemoveAffiliate (call_principals k))
  ∧ (∀ ix, build self k = Ok ix →
           data ix = discriminator RemoveAffiliate ∧ argument_payload ix = []
           ∧ length (data ix) = 8%nat).
Proof.
  simpl. set (m := Keypair_pubkey merchant).
  pose proof (remove_affiliate_ix_Ok self merchant affiliate_wallet m m) as HOk.
  split; [split|].
  - intros [ix Hix]. apply HOk in Hix as (Ha & _). by eexists.
  - intros [l Hl]. exists (mkInstruction PROGRAM_ID (discriminator RemoveAffiliate) l).
    by apply HOk.
  - intros ix Hix. apply HOk in Hix as (_ & _ & Hd). split; [done|].
    unfold argument_payload. rewrite Hd. split; [|by rewrite length_discriminator].
    apply drop_ge. by rewrite length_discriminator.
Qed.

Lemma remove_affiliate_only_derives_witness :
  let exhausted : Solders := {| try_find_program_address _ _ := None |} in
  is_Ok (@remove_affiliate_ix sample_solders sample_self (sample_keypair 1) (sample_key 2))
  ∧ ¬ is_Ok (@remove_affiliate_ix exhausted sample_self (sample_keypair 1) (sample_key 2)).
Proof.
  intros exhausted. split.
  - apply (@remove_affiliate_only_derives sample_solders sample_self
             (sample_keypair 1) (sample_key 2)). by eexists.
  - intros Hok.
    apply (@remove_affiliate_only_derives exhausted sample_self
             (sample_keypair 1) (sample_key 2)) in Hok as [l Hl].
    discriminate Hl.
Defined.
